(** * The UCB bandit of [multiarm-bandits/ucb.py]

    A shallow embedding of the module [ucb.py]: the helper [argmax_rand] and
    the class [UCB] with its methods [__init__], [play] and [update].

    Modelling decisions, all visible in the definitions below:
    - a numpy [float64] is a value of [float64]: an exact rational, or one of
      the IEEE special values [+inf], [-inf], [nan].  Finite arithmetic is
      exact (no rounding, no overflow); every rule that involves a special
      value is the IEEE rule ([inf * 0 = nan], [nan] is unequal to itself and
      absorbs every operation, [x / 0] is an infinity or [nan]).  The two
      zeros of IEEE are one value: the program only ever divides by integers;
    - [np.sqrt] and [np.log10] are parameters of the development: no result
      depends on what they return;
    - a Python [dict] is a [gmap]; a Python exception is the constructor
      [Raise] of [result], and a method is a function from the object's state
      to a result together with the state the object is left in (the state at
      the point of the [raise] when the method fails);
    - [np.random.choice] takes its random outcome as an explicit argument
      [draw]. *)

From Stdlib Require Import ZArith QArith Qcanon Lia.
From stdpp Require Import base tactics option numbers list fin_maps gmap.

Local Open Scope Z_scope.

(** ** Floating-point values *)

Inductive float64 : Type :=
  | Fin (q : Qc)
  | PInf
  | NInf
  | NaN.

(** A Python [int] used where a float is expected. *)
Definition Z2Qc (z : Z) : Qc := Q2Qc (inject_Z z).

Definition of_int (z : Z) : float64 := Fin (Z2Qc z).

Definition isnan (x : float64) : bool :=
  match x with NaN => true | _ => false end.

(** The sign of a rational, as a [comparison] with zero. *)
Definition Qc_sign (q : Qc) : comparison := (q ?= Q2Qc 0)%Qc.

(** An infinity whose sign is the given one; [nan] for the sign of zero. *)
Definition signed_inf (s : comparison) : float64 :=
  match s with Gt => PInf | Lt => NInf | Eq => NaN end.

Definition fmul (x y : float64) : float64 :=
  match x, y with
  | NaN, _ | _, NaN => NaN
  | Fin a, Fin b => Fin (a * b)%Qc
  | Fin a, PInf | PInf, Fin a => signed_inf (Qc_sign a)
  | Fin a, NInf | NInf, Fin a => signed_inf (CompOpp (Qc_sign a))
  | PInf, PInf | NInf, NInf => PInf
  | PInf, NInf | NInf, PInf => NInf
  end.

Definition fadd (x y : float64) : float64 :=
  match x, y with
  | NaN, _ | _, NaN => NaN
  | Fin a, Fin b => Fin (a + b)%Qc
  | PInf, NInf | NInf, PInf => NaN
  | PInf, _ | _, PInf => PInf
  | NInf, _ | _, NInf => NInf
  end.

Definition fdiv (x y : float64) : float64 :=
  match x, y with
  | NaN, _ | _, NaN => NaN
  | Fin a, Fin b =>
      match Qc_sign b with
      | Eq => signed_inf (Qc_sign a)
      | _ => Fin (a / b)%Qc
      end
  | Fin _, (PInf | NInf) => Fin (Q2Qc 0)
  | (PInf | NInf), (PInf | NInf) => NaN
  | PInf, Fin b => match Qc_sign b with Lt => NInf | _ => PInf end
  | NInf, Fin b => match Qc_sign b with Lt => PInf | _ => NInf end
  end.

(** [x == y] on floats: [nan] equals nothing, itself included. *)
Definition feqb (x y : float64) : bool :=
  match x, y with
  | Fin a, Fin b => Qc_eq_bool a b
  | PInf, PInf | NInf, NInf => true
  | _, _ => false
  end.

(** [x < y] on floats: false as soon as one side is [nan]. *)
Definition fltb (x y : float64) : bool :=
  match x, y with
  | NaN, _ | _, NaN => false
  | Fin a, Fin b => match (a ?= b)%Qc with Lt => true | _ => false end
  | NInf, (Fin _ | PInf) => true
  | Fin _, PInf => true
  | _, _ => false
  end.

Definition fleb (x y : float64) : bool := fltb x y || feqb x y.

(** ** Exceptions and results *)

Inductive exn : Type := ValueError | IndexError | KeyError.

Inductive result (A : Type) : Type :=
  | Ok (a : A)
  | Raise (e : exn).
Arguments Ok {A} a.
Arguments Raise {A} e.

Definition is_Ok {A} (r : result A) : bool :=
  match r with Ok _ => true | Raise _ => false end.

Definition result_bind {A B} (r : result A) (k : A -> result B) : result B :=
  match r with Ok a => k a | Raise e => Raise e end.

(** ** numpy arrays *)

(** [np.maximum] on two scalars: a [nan] on either side wins. *)
Definition np_maximum (x y : float64) : float64 :=
  if isnan x then x else if isnan y then y else if fltb x y then y else x.

(** [a.max()]: [ValueError] on an empty array. *)
Definition np_max (a : list float64) : result float64 :=
  match a with
  | [] => Raise ValueError
  | x :: rest => Ok (foldl np_maximum x rest)
  end.

(** [np.flatnonzero(mask)], the positions counted from [start]. *)
Fixpoint flatnonzero_from (start : Z) (mask : list bool) : list Z :=
  match mask with
  | [] => []
  | b :: rest =>
      if b then start :: flatnonzero_from (start + 1) rest
      else flatnonzero_from (start + 1) rest
  end.

Definition flatnonzero (mask : list bool) : list Z := flatnonzero_from 0 mask.

(** [np.random.choice(l)]: [ValueError] on an empty array, else the element
    the random source designates. *)
Definition random_choice (draw : nat) (l : list Z) : result Z :=
  match l !! (draw mod length l)%nat with
  | Some i => Ok i
  | None => Raise ValueError
  end.

(** The position an index designates in an array of length [len]: negative
    indices count from the end, anything else is an [IndexError]. *)
Definition np_index (len : nat) (i : Z) : result nat :=
  let n := Z.of_nat len in
  if bool_decide (0 <= i < n) then Ok (Z.to_nat i)
  else if bool_decide (- n <= i < 0) then Ok (Z.to_nat (i + n))
  else Raise IndexError.

Definition np_getitem (a : list float64) (i : Z) : result float64 :=
  result_bind (np_index (length a) i) (fun k =>
  match a !! k with Some x => Ok x | None => Raise IndexError end).

Definition np_setitem (a : list float64) (i : Z) (v : float64)
  : result (list float64) :=
  result_bind (np_index (length a) i) (fun k => Ok (<[k := v]> a)).

(** [argmax_rand(a)]:
    [np.random.choice(np.flatnonzero(a == a.max()))]. *)
Definition argmax_rand (draw : nat) (a : list float64) : result Z :=
  result_bind (np_max a) (fun m =>
  random_choice draw (flatnonzero (map (fun x => feqb x m) a))).

(** ** The class [UCB] *)

Record UCB : Type := mkUCB {
  narms : Z;
  Q0 : float64;
  rho : float64;
  Q : list float64;
  Q_mu : list float64;
  arm_at_t : gmap Z Z;
  reward_at_t : list float64;
  num_times_arm : gmap Z Z
}.

Definition set_Q (v : list float64) (s : UCB) : UCB :=
  mkUCB (narms s) (Q0 s) (rho s) v (Q_mu s) (arm_at_t s) (reward_at_t s)
        (num_times_arm s).
Definition set_Q_mu (v : list float64) (s : UCB) : UCB :=
  mkUCB (narms s) (Q0 s) (rho s) (Q s) v (arm_at_t s) (reward_at_t s)
        (num_times_arm s).
Definition set_arm_at_t (v : gmap Z Z) (s : UCB) : UCB :=
  mkUCB (narms s) (Q0 s) (rho s) (Q s) (Q_mu s) v (reward_at_t s)
        (num_times_arm s).
Definition set_reward_at_t (v : list float64) (s : UCB) : UCB :=
  mkUCB (narms s) (Q0 s) (rho s) (Q s) (Q_mu s) (arm_at_t s) v
        (num_times_arm s).
Definition set_num_times_arm (v : gmap Z Z) (s : UCB) : UCB :=
  mkUCB (narms s) (Q0 s) (rho s) (Q s) (Q_mu s) (arm_at_t s) (reward_at_t s) v.

(** A method of the object: it reads and mutates [self] and returns or
    raises; the state comes back in both cases. *)
Definition M (A : Type) : Type := UCB -> result A * UCB.

Definition ret {A} (a : A) : M A := fun s => (Ok a, s).
Definition bind {A B} (k : A -> M B) (m : M A) : M B :=
  fun s => match m s with
           | (Ok a, s') => k a s'
           | (Raise e, s') => (Raise e, s')
           end.
#[global] Instance M_ret : MRet M := @ret.
#[global] Instance M_bind : MBind M := @bind.
Definition gets {A} (f : UCB -> A) : M A := fun s => (Ok (f s), s).
Definition modify (f : UCB -> UCB) : M unit := fun s => (Ok tt, f s).
Definition lift {A} (r : result A) : M A := fun s => (r, s).

(** [d[k]] on a dict: [KeyError] when the key is absent. *)
Definition dict_get (d : gmap Z Z) (k : Z) : result Z :=
  match d !! k with Some v => Ok v | None => Raise KeyError end.

(** [for x in l: body(x)], stopping at the first exception. *)
Fixpoint for_each {A} (l : list A) (body : A -> M unit) : M unit :=
  match l with
  | [] => ret tt
  | x :: rest => body x;; for_each rest body
  end.

(** [UCB(narms, rho, Q0)].  [np.zeros] and [np.full] refuse a negative
    length. *)
Definition __init__ (narms : Z) (rho : float64) (Q0 : float64) : result UCB :=
  if bool_decide (narms < 0) then Raise ValueError
  else Ok (mkUCB narms Q0 rho
                 (replicate (Z.to_nat narms) (of_int 0))
                 (replicate (Z.to_nat narms) Q0)
                 ∅ [] ∅).

(** The default of the keyword argument [Q0]. *)
Definition Q0_default : float64 := PInf.

(** [self.play(tround)]; the argument [context] is never read. *)
Definition play (draw : nat) (tround : Z) : M Z :=
  hist ← gets arm_at_t;
  match hist !! tround with
  | Some prev =>
      cnt ← gets num_times_arm;
      c ← lift (dict_get cnt prev);
      modify (set_num_times_arm (<[prev := c - 1]> cnt))
  | None => ret tt
  end;;
  q ← gets Q;
  i ← lift (argmax_rand draw q);
  hist ← gets arm_at_t;
  modify (set_arm_at_t (<[tround := i]> hist));;
  cnt ← gets num_times_arm;
  modify (set_num_times_arm (<[i := default 0 (cnt !! i) + 1]> cnt));;
  ret (i + 1).

Section Update.
(** [np.sqrt] and [np.log10]. *)
Variables np_sqrt np_log10 : float64 -> float64.

(** The upper confidence bound of an arm pulled [n] times with mean [mu],
    when [t] rounds are on record. *)
Definition ucb_score (rho : float64) (t : nat) (n : Z) (mu : float64)
  : float64 :=
  fadd (np_sqrt (fdiv (fmul rho (np_log10 (of_int (Z.of_nat t + 1))))
                      (of_int n)))
       mu.

(** The body of the loop of [update] for the key [a]. *)
Definition rescore (a : Z) : M unit :=
  cnt ← gets num_times_arm;
  n ← lift (dict_get cnt a);
  if bool_decide (0 < n) then
    r ← gets rho;
    hist ← gets arm_at_t;
    cnt ← gets num_times_arm;
    n ← lift (dict_get cnt a);
    qmu ← gets Q_mu;
    mu ← lift (np_getitem qmu a);
    q ← gets Q;
    q' ← lift (np_setitem q a (ucb_score r (size hist) n mu));
    modify (set_Q q')
  else ret tt.

(** [self.update(arm, reward)]; the argument [context] is never read.
    The loop visits the keys in the order of the map and Python in the order
    of insertion; every key writes the cell of its own arm, so the order
    shows only in the state an exception inside the loop would leave, and on
    the states the methods produce the loop does not raise. *)
Definition update (arm : Z) (reward : float64) : M unit :=
  let arm := arm - 1 in
  log ← gets reward_at_t;
  modify (set_reward_at_t (log ++ [reward]));;
  qmu ← gets Q_mu;
  mu ← lift (np_getitem qmu arm);
  cnt ← gets num_times_arm;
  n ← lift (dict_get cnt arm);
  n' ← lift (dict_get cnt arm);
  let v := fdiv (fadd (fmul mu (of_int (n - 1))) reward) (of_int n') in
  qmu' ← lift (np_setitem qmu arm v);
  modify (set_Q_mu qmu');;
  cnt ← gets num_times_arm;
  for_each (map fst (map_to_list cnt)) rescore.

(** ** Sequences of calls

    A caller drives the object with [play] and [update] calls and sees
    what each returns or raises; it may go on after an exception. *)

Inductive call : Type :=
  | Play (draw : nat) (tround : Z)
  | Update (arm : Z) (reward : float64).

Inductive reply : Type :=
  | Played (r : result Z)
  | Updated (r : result unit).

Definition step (c : call) (s : UCB) : reply * UCB :=
  match c with
  | Play draw tround => let '(r, s') := play draw tround s in (Played r, s')
  | Update arm reward => let '(r, s') := update arm reward s in (Updated r, s')
  end.

Fixpoint run (cs : list call) (s : UCB) : list reply * UCB :=
  match cs with
  | [] => ([], s)
  | c :: rest =>
      let '(r, s') := step c s in
      let '(rs, s'') := run rest s' in
      (r :: rs, s'')
  end.

(** One round of the protocol on a chosen arm: [play], which has to return
    the arm [a], then [update] with the reward. [None] when the round did
    not go that way. *)
Definition round_on (a : Z) (draw : nat) (tround : Z) (reward : float64)
    (s : UCB) : option UCB :=
  match play draw tround s with
  | (Ok a', s1) =>
      if bool_decide (a' = a) then
        match update a reward s1 with
        | (Ok _, s2) => Some s2
        | (Raise _, _) => None
        end
      else None
  | (Raise _, _) => None
  end.

Fixpoint rounds_on (a : Z) (rounds : list (nat * Z * Qc)) (s : UCB)
  : option UCB :=
  match rounds with
  | [] => Some s
  | (draw, tround, reward) :: rest =>
      match round_on a draw tround (Fin reward) s with
      | Some s' => rounds_on a rest s'
      | None => None
      end
  end.
End Update.

(** ** Observations on states and call sequences *)

(** The sum of the pull counts over all arms. *)
Definition total_pulls (s : UCB) : Z :=
  map_fold (fun _ n acc => n + acc) 0 (num_times_arm s).

(** The pull count of an arm (0-indexed), zero when the arm has no entry. *)
Definition pull_count (s : UCB) (a : Z) : Z :=
  default 0 (num_times_arm s !! a).



(** Every [play] call of a run returned. *)
Definition play_returned (r : reply) : bool :=
  match r with Played (Raise _) => false | _ => true end.

Definition plays_returned (rs : list reply) : bool := forallb play_returned rs.

(** The arms tied for the maximal score: what [argmax_rand] draws from. *)
Definition tied_arms (a : list float64) : list Z :=
  match np_max a with
  | Ok m => flatnonzero (map (fun x => feqb x m) a)
  | Raise _ => []
  end.

(** The caller's obligation before [update(arm, _)]: [play] has selected the
    arm, so that it has a positive pull count. *)
Definition played_before (s : UCB) (arm : Z) : Prop :=
  exists n, num_times_arm s !! (arm - 1) = Some n /\ 0 < n.

(** The states the constructor and the methods produce: both arrays have
    [narms] cells, the pull counts are keyed by arms, and every arm on record
    for a round has a pull count. *)
Record wf (s : UCB) : Prop := mkWf {
  wf_Q : Z.of_nat (length (Q s)) = narms s;
  wf_Q_mu : Z.of_nat (length (Q_mu s)) = narms s;
  wf_keys : forall a n, num_times_arm s !! a = Some n -> 0 <= a < narms s;
  wf_hist : forall t a, arm_at_t s !! t = Some a -> is_Some (num_times_arm s !! a)
}.

(** The three mutations of the methods, named for the statements below:
    [play] takes back the pull on record for a round played again, and
    records the arm it has selected; [update] logs the reward. *)
Definition undo_pull (prev c : Z) (s : UCB) : UCB :=
  set_num_times_arm (<[prev := c - 1]> (num_times_arm s)) s.

Definition record_pull (tround i : Z) (s : UCB) : UCB :=
  set_num_times_arm
    (<[i := default 0 (num_times_arm s !! i) + 1]> (num_times_arm s))
    (set_arm_at_t (<[tround := i]> (arm_at_t s)) s).

Definition log_reward (reward : float64) (s : UCB) : UCB :=
  set_reward_at_t (reward_at_t s ++ [reward]) s.

(** The scores can be compared: there is at least one arm and no score is
    [nan]. *)
Definition comparable_scores (s : UCB) : Prop :=
  Q s <> [] /\ Forall (fun x => isnan x = false) (Q s).

(** The object [UCB(narms, rho, Q0)] evaluates to, for the examples; an object
    without arms stands for a constructor that raises. *)
Definition selector (narms : Z) (rho Q0 : float64) : UCB :=
  match __init__ narms rho Q0 with
  | Ok s => s
  | Raise _ => mkUCB 0 Q0 rho [] [] ∅ [] ∅
  end.

(** A call that raised. *)
Definition failed (r : reply) : bool :=
  match r with
  | Played (Raise _) | Updated (Raise _) => true
  | _ => false
  end.

(** [UCB(2, 1.0)] after [play(1)] with a draw that selects the first arm. *)
Definition played_once : UCB :=
  (play 0 1 (selector 2 (of_int 1) Q0_default)).2.

(** The sum of a list of rationals. *)
Definition Qc_sum (l : list Qc) : Qc := foldr Qcplus (Q2Qc 0) l.


(** A stand-in for [np.sqrt] and [np.log10] in the examples. *)
Definition id_ufunc (x : float64) : float64 := x.

(** [played_once] after [update(1, 1.0)]: the mean and the score of the
    first arm are [nan]. *)
Definition updated_once : UCB :=
  (update id_ufunc id_ufunc 1 (of_int 1) played_once).2.

(** [played_once] after [play(1)] again, with a draw that selects the second
    arm: the pull count of the first arm is back to zero. *)
Definition replayed_once : UCB := (play 1 1 played_once).2.

(** Two rounds on the only arm of [UCB(1, 1.0, 0.0)], with rewards 1 and 3. *)
Definition two_rounds : UCB :=
  default (selector 1 (of_int 1) (of_int 0))
    (rounds_on id_ufunc id_ufunc 1 [(0%nat, 1, Z2Qc 1); (0%nat, 2, Z2Qc 3)]
               (selector 1 (of_int 1) (of_int 0))).

(** The number of rounds the selection history records for an arm
    (0-indexed). *)
Definition rounds_of (s : UCB) (a : Z) : nat :=
  size (filter (fun p : Z * Z => p.2 = a) (arm_at_t s)).

(** The rewards a sequence of calls passes to [update], in order. *)
Fixpoint rewards_of (cs : list call) : list float64 :=
  match cs with
  | [] => []
  | Play _ _ :: rest => rewards_of rest
  | Update _ reward :: rest => reward :: rewards_of rest
  end.

(** An arm (0-indexed) whose mean and score are both [nan]. *)
Definition nan_arm (s : UCB) (a : nat) : Prop :=
  Q s !! a = Some NaN /\ Q_mu s !! a = Some NaN.

(** * Properties *)

(** ** Floats *)

Lemma Qc_eq_bool_refl (a : Qc) : Qc_eq_bool a a = true.
Proof. unfold Qc_eq_bool. destruct (Qcanon.Qc_eq_dec a a) as [_ | n]; [done | by destruct n]. Qed.

Lemma feqb_eq (x y : float64) : feqb x y = true -> x = y.
Proof.
  destruct x, y; simpl; try discriminate; try reflexivity.
  intros H. apply Qc_eq_bool_correct in H. by subst.
Qed.

Lemma feqb_refl (x : float64) : isnan x = false -> feqb x x = true.
Proof. destruct x; simpl; try done. intros _. apply Qc_eq_bool_refl. Qed.

Lemma feqb_nan_r (x : float64) : feqb x NaN = false.
Proof. by destruct x. Qed.

Lemma fleb_Fin (a b : Qc) : fleb (Fin a) (Fin b) = true <-> (a <= b)%Qc.
Proof.
  unfold fleb; cbn [fltb feqb]. rewrite orb_true_iff. split.
  - intros [H | H].
    + apply Qclt_le_weak, Qclt_alt. revert H. by case (Qccompare a b).
    + apply Qc_eq_bool_correct in H. subst. apply Qcle_refl.
  - intros H. destruct (Qcle_lt_or_eq _ _ H) as [Hlt | ->].
    + left. assert (E : Qccompare a b = Lt) by (by apply Qclt_alt). by rewrite E.
    + right. apply Qc_eq_bool_refl.
Qed.

Lemma fltb_fleb (x y : float64) : fltb x y = true -> fleb x y = true.
Proof. unfold fleb. by intros ->. Qed.

Lemma fleb_refl (x : float64) : isnan x = false -> fleb x x = true.
Proof. intros H. unfold fleb. rewrite (feqb_refl _ H). apply orb_true_r. Qed.

Lemma fleb_total (x y : float64) :
  isnan x = false -> isnan y = false -> fltb x y = false -> fleb y x = true.
Proof.
  destruct x as [a| | |], y as [b| | |]; try done.
  intros _ _ H. apply fleb_Fin. cbn [fltb] in H.
  apply Qcnot_lt_le. intros Hlt.
  assert (E : Qccompare a b = Lt) by (by apply Qclt_alt). by rewrite E in H.
Qed.

Lemma fleb_trans (x y z : float64) :
  fleb x y = true -> fleb y z = true -> fleb x z = true.
Proof.
  destruct x as [a| | |], y as [b| | |], z as [c| | |]; try done.
  rewrite !fleb_Fin. apply Qcle_trans.
Qed.

Lemma fleb_nonnan (x y : float64) :
  fleb x y = true -> isnan x = false /\ isnan y = false.
Proof. by destruct x, y. Qed.

Lemma fadd_nan_r (x : float64) : fadd x NaN = NaN.
Proof. by destruct x. Qed.

Lemma fmul_inf_zero : fmul PInf (of_int 0) = NaN.
Proof. reflexivity. Qed.

(** Integers among the rationals. *)

Lemma Z2Qc_add (a b : Z) : Z2Qc (a + b) = (Z2Qc a + Z2Qc b)%Qc.
Proof.
  unfold Z2Qc, Qcplus. apply Q2Qc_eq_iff. simpl.
  rewrite !Qred_correct, inject_Z_plus. reflexivity.
Qed.

Lemma Qc_sign_pos (n : Z) : 0 < n -> Qc_sign (Z2Qc n) = Gt.
Proof.
  intros Hn. unfold Qc_sign, Qccompare, Z2Qc. simpl.
  rewrite <- Qred_compare. unfold Qcompare. simpl. apply Z.compare_gt_iff. lia.
Qed.

Lemma Z2Qc_pos_nonzero (n : Z) : 0 < n -> Z2Qc n <> Q2Qc 0.
Proof.
  intros Hn E. pose proof (Qc_sign_pos n Hn) as H.
  unfold Qc_sign in H. rewrite E in H. discriminate H.
Qed.

(** The incremental mean, in exact arithmetic: when [m] is the mean of [k]
    rewards of sum [S], the new value is the mean of the [k + 1] rewards. *)
Lemma fdiv_mean_step (m r S : Qc) (k : Z) :
  0 <= k -> (m * Z2Qc k = S)%Qc ->
  exists m', fdiv (fadd (fmul (Fin m) (of_int (k + 1 - 1))) (Fin r)) (of_int (k + 1))
             = Fin m' /\ (m' * Z2Qc (k + 1) = S + r)%Qc.
Proof.
  intros Hk HS. replace (k + 1 - 1) with k by lia.
  unfold of_int, fmul, fadd, fdiv. rewrite Qc_sign_pos by lia.
  eexists. split; [reflexivity|]. rewrite HS.
  unfold Qcdiv. rewrite <- Qcmult_assoc, Qcmult_inv_l, Qcmult_1_r; [done|].
  apply Z2Qc_pos_nonzero. lia.
Qed.

(** ** [a.max()] *)

Lemma foldl_np_maximum (rest : list float64) (acc : float64) :
  isnan acc = false ->
  Forall (fun x => isnan x = false) rest ->
  let m := foldl np_maximum acc rest in
  isnan m = false /\ (m = acc \/ m ∈ rest) /\
  fleb acc m = true /\ Forall (fun y => fleb y m = true) rest.
Proof.
  revert acc. induction rest as [|x rest IH]; intros acc Hacc Hrest; simpl.
  - split_and!; [done | by left | by apply fleb_refl | constructor].
  - inversion Hrest as [|? ? Hx Hrest']; subst.
    assert (Hstep : isnan (np_maximum acc x) = false /\
                    (np_maximum acc x = acc \/ np_maximum acc x = x) /\
                    fleb acc (np_maximum acc x) = true /\
                    fleb x (np_maximum acc x) = true).
    { unfold np_maximum. rewrite Hacc, Hx.
      destruct (fltb acc x) eqn:Hlt.
      - split_and!; [done | by right | by apply fltb_fleb | by apply fleb_refl].
      - split_and!; [done | by left | by apply fleb_refl | by apply fleb_total]. }
    destruct Hstep as (Hn & Hsel & Hle1 & Hle2).
    destruct (IH _ Hn Hrest') as (Hm & Hin & Hle & Hall).
    split_and!.
    + done.
    + destruct Hin as [-> | Hin]; [| right; by apply list_elem_of_further].
      destruct Hsel as [-> | ->]; [by left | right; apply list_elem_of_here].
    + by eapply fleb_trans.
    + constructor; [by eapply fleb_trans | done].
Qed.

Lemma np_max_spec (a : list float64) :
  a <> [] -> Forall (fun x => isnan x = false) a ->
  exists m, np_max a = Ok m /\ isnan m = false /\ m ∈ a /\
            Forall (fun y => fleb y m = true) a.
Proof.
  destruct a as [|x rest]; [done | intros _ Ha].
  inversion Ha as [|? ? Hx Hrest]; subst.
  destruct (foldl_np_maximum rest x Hx Hrest) as (Hm & Hin & Hle & Hall).
  exists (foldl np_maximum x rest). split_and!; try done.
  - destruct Hin as [-> | Hin]; [apply list_elem_of_here | by apply list_elem_of_further].
  - by constructor.
Qed.

Lemma foldl_np_maximum_nan (rest : list float64) (acc : float64) :
  isnan acc = true \/ Exists (fun x => isnan x = true) rest ->
  foldl np_maximum acc rest = NaN.
Proof.
  revert acc. induction rest as [|x rest IH]; intros acc [Hacc | Hex]; simpl.
  - by destruct acc.
  - inversion Hex.
  - apply IH. left. unfold np_maximum. by rewrite Hacc.
  - apply IH. inversion Hex as [? ? Hx | ? ? Hex']; subst; [left | by right].
    unfold np_maximum. destruct (isnan acc) eqn:E; [done | by rewrite Hx].
Qed.

(** A [nan] among the scores is the maximum. *)
Lemma np_max_nan (a : list float64) :
  Exists (fun x => isnan x = true) a -> np_max a = Ok NaN.
Proof.
  destruct a as [|x rest]; [inversion 1 | intros Hex]; simpl.
  f_equal. apply foldl_np_maximum_nan.
  inversion Hex; subst; [by left | by right].
Qed.

(** ** [np.flatnonzero] and [np.random.choice] *)

Lemma elem_of_flatnonzero_from (mask : list bool) (start i : Z) :
  i ∈ flatnonzero_from start mask <->
  exists k : nat, i = start + Z.of_nat k /\ mask !! k = Some true.
Proof.
  revert start. induction mask as [|b mask IH]; intros start; simpl.
  - split; [by intros ?%elem_of_nil | by intros (k & _ & ?)].
  - assert (Htail : i ∈ flatnonzero_from (start + 1) mask <->
                    exists k : nat, i = start + Z.of_nat (S k) /\ mask !! k = Some true).
    { rewrite IH. split; intros (k & -> & Hk); exists k; split; (lia || done). }
    destruct b.
    + rewrite elem_of_cons, Htail. split.
      * intros [-> | (k & -> & Hk)]; [exists 0%nat | exists (S k)]; split; (lia || done).
      * intros ([|k] & -> & Hk); [left; lia | right; by exists k].
    + rewrite Htail. split.
      * intros (k & -> & Hk). by exists (S k).
      * intros ([|k] & -> & Hk); [done | by exists k].
Qed.

Lemma elem_of_flatnonzero (mask : list bool) (i : Z) :
  i ∈ flatnonzero mask <-> 0 <= i /\ mask !! Z.to_nat i = Some true.
Proof.
  unfold flatnonzero. rewrite elem_of_flatnonzero_from. split.
  - intros (k & -> & Hk). split; [lia |]. by replace (Z.to_nat (0 + Z.of_nat k)) with k by lia.
  - intros [Hi Hk]. exists (Z.to_nat i). split; [lia | done].
Qed.

Lemma random_choice_nil (draw : nat) : random_choice draw [] = Raise ValueError.
Proof. reflexivity. Qed.

Lemma random_choice_ok (draw : nat) (l : list Z) :
  l <> [] -> exists i, random_choice draw l = Ok i /\ i ∈ l.
Proof.
  intros Hl. unfold random_choice.
  assert (Hlt : (draw mod length l < length l)%nat).
  { apply Nat.mod_upper_bound. by destruct l. }
  destruct (lookup_lt_is_Some_2 l _ Hlt) as [i Hi].
  rewrite Hi. exists i. split; [done | by eapply list_elem_of_lookup_2].
Qed.

Lemma random_choice_elem (draw : nat) (l : list Z) (i : Z) :
  random_choice draw l = Ok i -> i ∈ l.
Proof.
  unfold random_choice. destruct (l !! _) as [j|] eqn:Hj; [|done].
  intros [= <-]. by eapply list_elem_of_lookup_2.
Qed.

Lemma random_choice_raise (draw : nat) (l : list Z) (e : exn) :
  random_choice draw l = Raise e -> l = [] /\ e = ValueError.
Proof.
  destruct l as [|x l]; [by intros [= <-] |].
  intros H. destruct (random_choice_ok draw (x :: l)) as (i & Hi & _); [done |].
  congruence.
Qed.

(** Every element can be drawn: the random source is not restricted. *)
Lemma random_choice_surj (l : list Z) (i : Z) :
  i ∈ l -> exists draw, random_choice draw l = Ok i.
Proof.
  intros (k & Hk)%list_elem_of_lookup_1. exists k. unfold random_choice.
  rewrite Nat.mod_small; [by rewrite Hk | by eapply lookup_lt_Some].
Qed.

Lemma random_choice_singleton (draw : nat) (i : Z) : random_choice draw [i] = Ok i.
Proof. unfold random_choice. cbn [length]. by rewrite Nat.mod_1_r. Qed.

(** ** [argmax_rand] *)

Lemma argmax_rand_tied (draw : nat) (a : list float64) :
  argmax_rand draw a = random_choice draw (tied_arms a).
Proof. unfold argmax_rand, tied_arms. by destruct a. Qed.

Lemma elem_of_tied_arms (a : list float64) (m : float64) (i : Z) :
  np_max a = Ok m ->
  i ∈ tied_arms a <-> 0 <= i /\ a !! Z.to_nat i = Some m /\ isnan m = false.
Proof.
  intros Hm. unfold tied_arms. rewrite Hm, elem_of_flatnonzero, list_lookup_fmap.
  split.
  - intros [Hi Hk]. destruct (a !! Z.to_nat i) as [x|]; [|done].
    simpl in Hk. injection Hk as Hk. apply feqb_eq in Hk as Hx. subst x.
    split_and!; try done. destruct m; try done.
  - intros (Hi & -> & Hn). simpl. by rewrite feqb_refl.
Qed.

Lemma tied_arms_nonempty (a : list float64) :
  a <> [] -> Forall (fun x => isnan x = false) a -> tied_arms a <> [].
Proof.
  intros Ha Hn. destruct (np_max_spec a Ha Hn) as (m & Hm & Hmn & Hin & _).
  apply list_elem_of_lookup_1 in Hin as [k Hk].
  assert (Z.of_nat k ∈ tied_arms a) as Hel.
  { apply (elem_of_tied_arms a m); [done|]. rewrite Nat2Z.id. split; [lia | done]. }
  intros E. rewrite E in Hel. by apply elem_of_nil in Hel.
Qed.

Lemma flatnonzero_from_eq_nan (a : list float64) (start : Z) :
  flatnonzero_from start (map (fun x => feqb x NaN) a) = [].
Proof.
  revert start. induction a as [|x a IH]; intros start; simpl; [done|].
  by rewrite feqb_nan_r.
Qed.

(** With a [nan] among the scores no arm is tied for the maximum. *)
Lemma tied_arms_nan (a : list float64) :
  Exists (fun x => isnan x = true) a -> tied_arms a = [].
Proof.
  intros Hex. unfold tied_arms. rewrite (np_max_nan a Hex).
  apply flatnonzero_from_eq_nan.
Qed.

(** ** The methods, case by case *)

Ltac unfold_M :=
  unfold mbind, M_bind, bind, gets, modify, lift, mret, M_ret, ret, dict_get in *.

Lemma play_eq (draw : nat) (tround : Z) (s : UCB) :
  play draw tround s =
  match arm_at_t s !! tround with
  | Some prev =>
      match num_times_arm s !! prev with
      | Some c =>
          match argmax_rand draw (Q s) with
          | Ok i => (Ok (i + 1), record_pull tround i (undo_pull prev c s))
          | Raise e => (Raise e, undo_pull prev c s)
          end
      | None => (Raise KeyError, s)
      end
  | None =>
      match argmax_rand draw (Q s) with
      | Ok i => (Ok (i + 1), record_pull tround i s)
      | Raise e => (Raise e, s)
      end
  end.
Proof.
  unfold play. unfold_M.
  destruct (arm_at_t s !! tround) as [prev|]; simpl.
  - destruct (num_times_arm s !! prev) as [c|]; simpl; [|done].
    by destruct (argmax_rand draw (Q s)).
  - by destruct (argmax_rand draw (Q s)).
Qed.

(** ** The sum of the pull counts *)

Lemma sum_insert (m : gmap Z Z) (k v : Z) :
  map_fold (fun _ n acc => n + acc) 0 (<[k := v]> m) =
  map_fold (fun _ n acc => n + acc) 0 m - default 0 (m !! k) + v.
Proof.
  assert (Hfresh : forall m' : gmap Z Z, m' !! k = None ->
            map_fold (fun _ n acc => n + acc) 0 (<[k := v]> m') =
            v + map_fold (fun _ n acc => n + acc) 0 m').
  { intros m' Hk. apply (map_fold_insert_L (fun _ n acc => n + acc)); [|done].
    intros. lia. }
  destruct (m !! k) as [c|] eqn:Hk; simpl.
  - rewrite <- (insert_delete_eq m k v).
    rewrite Hfresh by apply lookup_delete_eq.
    rewrite (map_fold_delete_L (fun _ n acc => n + acc) 0 k c m); [lia | | done].
    intros. lia.
  - rewrite Hfresh by done. lia.
Qed.

Lemma total_pulls_undo (prev c : Z) (s : UCB) :
  num_times_arm s !! prev = Some c ->
  total_pulls (undo_pull prev c s) = total_pulls s - 1.
Proof. intros H. unfold total_pulls, undo_pull; simpl. rewrite sum_insert, H. simpl. lia. Qed.

Lemma total_pulls_record (tround i : Z) (s : UCB) :
  total_pulls (record_pull tround i s) = total_pulls s + 1.
Proof. unfold total_pulls, record_pull; simpl. rewrite sum_insert. lia. Qed.

(** ** Well-formed states *)

Lemma set_Q_id (s : UCB) : set_Q (Q s) s = s.
Proof. by destruct s. Qed.

Lemma wf_init (n : Z) (r q0 : float64) (s : UCB) :
  __init__ n r q0 = Ok s -> wf s.
Proof.
  unfold __init__. case_bool_decide as Hn; [done|]. intros [= <-].
  split; simpl; try (rewrite length_replicate; lia); intros ? ?; by rewrite lookup_empty.
Qed.

Lemma wf_undo_pull (prev c : Z) (s : UCB) :
  wf s -> num_times_arm s !! prev = Some c -> wf (undo_pull prev c s).
Proof.
  intros [HQ HQmu Hkeys Hhist] Hprev. split; simpl; try done.
  - intros a n [[-> _] | [_ Ha]]%lookup_insert_Some; eauto.
  - intros t a Ht. apply lookup_insert_is_Some.
    destruct (decide (prev = a)); [by left | right; eauto].
Qed.

Lemma wf_record_pull (tround i : Z) (s : UCB) :
  wf s -> 0 <= i < narms s -> wf (record_pull tround i s).
Proof.
  intros [HQ HQmu Hkeys Hhist] Hi. split; simpl; try done.
  - intros a n [[<- _] | [_ Ha]]%lookup_insert_Some; eauto.
  - intros t a Ht. apply lookup_insert_is_Some.
    destruct (decide (i = a)); [by left | right; split; [done|]].
    apply lookup_insert_Some in Ht as [[_ ->] | [_ Ht]]; [done | eauto].
Qed.

Lemma argmax_rand_range (draw : nat) (a : list float64) (i : Z) :
  argmax_rand draw a = Ok i ->
  0 <= i < Z.of_nat (length a) /\ exists m, np_max a = Ok m /\ a !! Z.to_nat i = Some m.
Proof.
  rewrite argmax_rand_tied. intros Hi%random_choice_elem.
  destruct (np_max a) as [m|e] eqn:Hm.
  - destruct (proj1 (elem_of_tied_arms a m i Hm) Hi) as (H0 & Hlk & _).
    apply lookup_lt_Some in Hlk as Hlt. split; [lia | eauto].
  - unfold tied_arms in Hi. rewrite Hm in Hi. by apply elem_of_nil in Hi.
Qed.

Lemma wf_play (draw : nat) (tround : Z) (s : UCB) :
  wf s -> wf (play draw tround s).2.
Proof.
  intros Hwf. rewrite play_eq.
  assert (Hsel : forall s', wf s' -> Q s' = Q s ->
            wf (match argmax_rand draw (Q s) with
                | Ok i => (Ok (i + 1), record_pull tround i s')
                | Raise e => (Raise e, s')
                end).2).
  { intros s' Hwf' HQ. destruct (argmax_rand draw (Q s)) as [i|e] eqn:Hi; [|done].
    apply wf_record_pull; [done|].
    apply argmax_rand_range in Hi as [Hi _]. rewrite <- (wf_Q s' Hwf'), HQ. lia. }
  destruct (arm_at_t s !! tround) as [prev|]; [|by apply Hsel].
  destruct (num_times_arm s !! prev) as [c|] eqn:Hc; [|done].
  apply Hsel; [by apply wf_undo_pull | done].
Qed.

Lemma np_index_in (len : nat) (i : Z) :
  0 <= i < Z.of_nat len -> np_index len i = Ok (Z.to_nat i).
Proof. intros Hi. unfold np_index. cbv zeta. case_bool_decide; [done | lia]. Qed.

Lemma np_index_out (len : nat) (i : Z) :
  ~ (- Z.of_nat len <= i < Z.of_nat len) -> np_index len i = Raise IndexError.
Proof.
  intros Hi. unfold np_index. cbv zeta.
  repeat case_bool_decide; (done || lia).
Qed.

Lemma np_getitem_in (a : list float64) (i : Z) :
  0 <= i < Z.of_nat (length a) ->
  exists x, a !! Z.to_nat i = Some x /\ np_getitem a i = Ok x.
Proof.
  intros H. unfold np_getitem. rewrite np_index_in by done. simpl.
  destruct (lookup_lt_is_Some_2 a (Z.to_nat i)) as [x Hx]; [lia|].
  exists x. by rewrite Hx.
Qed.

Lemma np_setitem_in (a : list float64) (i : Z) (v : float64) :
  0 <= i < Z.of_nat (length a) -> np_setitem a i v = Ok (<[Z.to_nat i := v]> a).
Proof. intros H. unfold np_setitem. by rewrite np_index_in. Qed.

Section UpdateProperties.
Variables np_sqrt np_log10 : float64 -> float64.

Abbreviation rescore' := (rescore np_sqrt np_log10).
Abbreviation update' := (update np_sqrt np_log10).
Abbreviation step' := (step np_sqrt np_log10).
Abbreviation run' := (run np_sqrt np_log10).

Lemma rescore_ok (a n : Z) (s : UCB) :
  num_times_arm s !! a = Some n ->
  0 <= a < Z.of_nat (length (Q s)) ->
  length (Q_mu s) = length (Q s) ->
  exists q', rescore' a s = (Ok tt, set_Q q' s) /\ length q' = length (Q s).
Proof.
  intros Hn Ha Hlen. unfold rescore. unfold_M. rewrite Hn.
  case_bool_decide.
  - destruct (np_getitem_in (Q_mu s) a) as (mu & _ & Hmu); [lia|].
    rewrite Hmu, Hn, np_setitem_in by done. simpl.
    eexists. split; [reflexivity | by rewrite length_insert].
  - exists (Q s). by rewrite set_Q_id.
Qed.

Lemma for_each_rescore (keys : list Z) (s : UCB) :
  Forall (fun k => is_Some (num_times_arm s !! k) /\
                   0 <= k < Z.of_nat (length (Q s))) keys ->
  length (Q_mu s) = length (Q s) ->
  exists q', for_each keys rescore' s = (Ok tt, set_Q q' s) /\
             length q' = length (Q s).
Proof.
  revert s. induction keys as [|k keys IH]; intros s Hkeys Hlen.
  - exists (Q s). by rewrite set_Q_id.
  - inversion Hkeys as [|? ? [[n Hn] Hk] Hrest]; subst.
    destruct (rescore_ok k n s Hn Hk Hlen) as (q1 & Hq1 & Hlen1).
    destruct (IH (set_Q q1 s)) as (q2 & Hq2 & Hlen2).
    { simpl. by rewrite Hlen1. }
    { simpl. by rewrite Hlen1. }
    exists q2. simpl in *. unfold_M. rewrite Hq1, Hq2. split; [done | congruence].
Qed.

(** What [update] does on a well-formed state: the reward is logged first;
    then the lookups of [Q_mu[arm]] and [num_times_arm[arm]] raise or the
    mean and the scores are rewritten. *)
Lemma update_eq (arm : Z) (reward : float64) (s : UCB) :
  wf s ->
  match np_getitem (Q_mu s) (arm - 1), num_times_arm s !! (arm - 1) with
  | Ok mu, Some n =>
      let v := fdiv (fadd (fmul mu (of_int (n - 1))) reward) (of_int n) in
      exists q', length q' = length (Q s) /\
        update' arm reward s =
        (Ok tt, set_Q q' (set_Q_mu (<[Z.to_nat (arm - 1) := v]> (Q_mu s))
                                   (log_reward reward s)))
  | Ok _, None => update' arm reward s = (Raise KeyError, log_reward reward s)
  | Raise e, _ => update' arm reward s = (Raise e, log_reward reward s)
  end.
Proof.
  intros Hwf. unfold update. unfold_M. simpl.
  destruct (np_getitem (Q_mu s) (arm - 1)) as [mu|e] eqn:Hmu; simpl; [|done].
  destruct (num_times_arm s !! (arm - 1)) as [n|] eqn:Hn; simpl; [|done].
  pose proof (wf_keys s Hwf _ _ Hn) as Hrange.
  rewrite np_setitem_in by (rewrite (wf_Q_mu s Hwf); lia). simpl.
  set (s2 := set_Q_mu _ _).
  destruct (for_each_rescore (map fst (map_to_list (num_times_arm s))) s2)
    as (q' & Hq' & Hlen).
  - apply Forall_forall. intros k Hk. subst s2; simpl.
    apply list_elem_of_fmap in Hk as ([k' n'] & -> & Hk).
    apply elem_of_map_to_list in Hk. simpl. split; [eauto|].
    rewrite (wf_Q s Hwf). eapply wf_keys; eauto.
  - subst s2; simpl. rewrite length_insert.
    pose proof (wf_Q s Hwf). pose proof (wf_Q_mu s Hwf). lia.
  - exists q'. split; [done|]. exact Hq'.
Qed.
Lemma rescore_eq (a n : Z) (mu : float64) (s : UCB) :
  num_times_arm s !! a = Some n ->
  0 <= a < Z.of_nat (length (Q s)) ->
  length (Q_mu s) = length (Q s) ->
  Q_mu s !! Z.to_nat a = Some mu ->
  rescore' a s =
  (Ok tt,
   if bool_decide (0 < n) then
     set_Q (<[Z.to_nat a := ucb_score np_sqrt np_log10 (rho s)
                              (size (arm_at_t s)) n mu]> (Q s)) s
   else s).
Proof.
  intros Hn Ha Hlen Hmu. unfold rescore. unfold_M. rewrite Hn.
  case_bool_decide; [|done].
  destruct (np_getitem_in (Q_mu s) a) as (mu' & Hmu' & Hget); [lia|].
  rewrite Hget, Hn, np_setitem_in by done. simpl. congruence.
Qed.

(** The loop of [update] leaves in [Q[j]] the score of every key [j] it
    meets that has a positive pull count. *)
Lemma for_each_rescore_hit (keys : list Z) (s : UCB) (j n : Z) (mu : float64) :
  Forall (fun k => is_Some (num_times_arm s !! k) /\
                   0 <= k < Z.of_nat (length (Q s))) keys ->
  length (Q_mu s) = length (Q s) ->
  num_times_arm s !! j = Some n -> 0 < n -> 0 <= j ->
  Q_mu s !! Z.to_nat j = Some mu ->
  let score := ucb_score np_sqrt np_log10 (rho s) (size (arm_at_t s)) n mu in
  j ∈ keys \/ Q s !! Z.to_nat j = Some score ->
  exists q', for_each keys rescore' s = (Ok tt, set_Q q' s) /\
             length q' = length (Q s) /\ q' !! Z.to_nat j = Some score.
Proof.
  intros Hkeys Hlen Hn Hpos Hj Hmu score. revert s Hkeys Hlen Hn Hmu score.
  induction keys as [|k keys IH]; intros s Hkeys Hlen Hn Hmu score Hhit.
  - destruct Hhit as [Hin | Hq]; [by apply elem_of_nil in Hin|].
    exists (Q s). by rewrite set_Q_id.
  - inversion Hkeys as [|? ? [[nk Hnk] Hk] Hrest]; subst.
    destruct (lookup_lt_is_Some_2 (Q_mu s) (Z.to_nat k)) as [muk Hmuk]; [lia|].
    pose proof (rescore_eq k nk muk s Hnk Hk Hlen Hmuk) as Hstep.
    set (s1 := if bool_decide (0 < nk) then set_Q _ s else s) in Hstep.
    assert (Hsame : num_times_arm s1 = num_times_arm s /\ Q_mu s1 = Q_mu s /\
                    rho s1 = rho s /\ arm_at_t s1 = arm_at_t s /\
                    length (Q s1) = length (Q s) /\ set_Q (Q s1) s = s1).
    { subst s1. case_bool_decide; simpl; rewrite ?length_insert, ?set_Q_id; done. }
    destruct Hsame as (Hc1 & Hm1 & Hr1 & Hh1 & Hl1 & Hs1).
    assert (Hhit1 : j ∈ keys \/ Q s1 !! Z.to_nat j = Some score).
    { destruct (decide (j = k)) as [-> | Hne].
      - right. subst s1. assert (nk = n) as -> by congruence.
        assert (muk = mu) as -> by congruence.
        rewrite bool_decide_eq_true_2 by done. simpl.
        apply list_lookup_insert_eq. lia.
      - destruct Hhit as [Hin | Hq].
        + apply elem_of_cons in Hin as [? | ?]; [done | by left].
        + right. subst s1. case_bool_decide; [|done]. simpl.
          rewrite list_lookup_insert_ne by lia. done. }
    destruct (IH s1) as (q' & Hq' & Hlen' & Hlk).
    { rewrite Hc1, Hl1. done. }
    { by rewrite Hm1, Hl1. }
    { by rewrite Hc1. }
    { by rewrite Hm1. }
    { by rewrite Hr1, Hh1. }
    exists q'. simpl. unfold_M. rewrite Hstep, Hq'.
    rewrite Hr1, Hh1 in Hlk. split_and!; [| congruence | done].
    f_equal. rewrite <- Hs1. done.
Qed.

(** [update] never touches the pull counts or the history, and logs the
    reward whether it returns or raises. *)
Lemma update_untouched (arm : Z) (reward : float64) (s : UCB) :
  wf s ->
  let s' := (update' arm reward s).2 in
  num_times_arm s' = num_times_arm s /\ arm_at_t s' = arm_at_t s /\
  reward_at_t s' = reward_at_t s ++ [reward] /\ narms s' = narms s /\
  length (Q s') = length (Q s) /\ length (Q_mu s') = length (Q_mu s).
Proof.
  intros Hwf. pose proof (update_eq arm reward s Hwf) as H.
  destruct (np_getitem (Q_mu s) (arm - 1)) as [mu|e].
  - destruct (num_times_arm s !! (arm - 1)) as [n|].
    + destruct H as (q' & Hlen & ->). simpl. by rewrite length_insert.
    + by rewrite H.
  - by rewrite H.
Qed.

Lemma wf_update (arm : Z) (reward : float64) (s : UCB) :
  wf s -> wf (update' arm reward s).2.
Proof.
  intros Hwf.
  destruct (update_untouched arm reward s Hwf) as (Hc & Hh & _ & Hn & HQ & HQmu).
  destruct Hwf as [H1 H2 H3 H4].
  split; rewrite ?Hc, ?Hh, ?Hn, ?HQ, ?HQmu; done.
Qed.

Lemma wf_step (c : call) (s : UCB) : wf s -> wf (step' c s).2.
Proof.
  intros Hwf. destruct c as [d t | arm r]; simpl.
  - pose proof (wf_play d t s Hwf). by destruct (play d t s).
  - pose proof (wf_update arm r s Hwf). by destruct (update' arm r s).
Qed.

Lemma wf_run (cs : list call) (s : UCB) : wf s -> wf (run' cs s).2.
Proof.
  revert s. induction cs as [|c cs IH]; intros s Hwf; simpl; [done|].
  pose proof (wf_step c s Hwf) as Hc. destruct (step' c s) as [r s1].
  specialize (IH s1 Hc). by destruct (run' cs s1).
Qed.

(** Every state a caller can reach from the constructor is well-formed,
    exceptions included. *)
Lemma wf_reachable (n : Z) (r q0 : float64) (s0 : UCB) (cs : list call) :
  __init__ n r q0 = Ok s0 -> wf (run' cs s0).2.
Proof. intros Hinit. apply wf_run. by eapply wf_init. Qed.

(** [update] returns when the arm is in range and [play] has selected it. *)
Lemma update_returns (arm : Z) (reward : float64) (s : UCB) :
  wf s -> is_Some (num_times_arm s !! (arm - 1)) ->
  exists s', update' arm reward s = (Ok tt, s').
Proof.
  intros Hwf [n Hn]. pose proof (update_eq arm reward s Hwf) as H.
  pose proof (wf_keys s Hwf _ _ Hn) as Hrange.
  destruct (np_getitem_in (Q_mu s) (arm - 1)) as (mu & _ & Hmu).
  { rewrite (wf_Q_mu s Hwf). lia. }
  rewrite Hmu, Hn in H. destruct H as (q' & _ & ->). eauto.
Qed.

(** [update] raises on an arm without pull count, in range or not. *)
Lemma update_raises (arm : Z) (reward : float64) (s : UCB) :
  wf s -> num_times_arm s !! (arm - 1) = None ->
  exists e, update' arm reward s = (Raise e, log_reward reward s) /\
            (e = IndexError \/ e = KeyError).
Proof.
  intros Hwf Hn. pose proof (update_eq arm reward s Hwf) as H.
  rewrite Hn in H. destruct (np_getitem (Q_mu s) (arm - 1)) as [mu|e] eqn:Hmu.
  - eauto.
  - exists e. split; [done|]. left.
    unfold np_getitem in Hmu. destruct (np_index _ _) as [k|e'] eqn:Hk; simpl in Hmu.
    + destruct (Q_mu s !! k); congruence.
    + unfold np_index in Hk. cbv zeta in Hk. repeat case_bool_decide; congruence.
Qed.
(** The arm [update] is called on, when [play] has counted it: its mean
    becomes [(mean * (n - 1) + reward) / n] and its score the upper
    confidence bound of that mean. *)
Lemma update_arm (arm n : Z) (reward mu : float64) (s : UCB) :
  wf s -> num_times_arm s !! (arm - 1) = Some n -> 0 < n ->
  Q_mu s !! Z.to_nat (arm - 1) = Some mu ->
  let v := fdiv (fadd (fmul mu (of_int (n - 1))) reward) (of_int n) in
  exists s', update' arm reward s = (Ok tt, s') /\
    Q_mu s' = <[Z.to_nat (arm - 1) := v]> (Q_mu s) /\
    Q s' !! Z.to_nat (arm - 1) =
      Some (ucb_score np_sqrt np_log10 (rho s) (size (arm_at_t s)) n v).
Proof.
  intros Hwf Hn Hpos Hmu v.
  pose proof (wf_keys s Hwf _ _ Hn) as Hrange.
  pose proof (wf_Q s Hwf) as HQ. pose proof (wf_Q_mu s Hwf) as HQmu.
  destruct (np_getitem_in (Q_mu s) (arm - 1)) as (mu' & Hmu' & Hget); [lia|].
  assert (mu' = mu) as -> by congruence.
  unfold update. unfold_M. simpl.
  rewrite Hget, Hn. simpl. rewrite np_setitem_in by lia. simpl.
  fold v. set (s2 := set_Q_mu _ _).
  destruct (for_each_rescore_hit (map fst (map_to_list (num_times_arm s))) s2
              (arm - 1) n v) as (q' & Hq' & Hlen & Hlk).
  - apply Forall_forall. intros k Hk. subst s2; simpl.
    apply list_elem_of_fmap in Hk as ([k' n'] & -> & Hk).
    apply elem_of_map_to_list in Hk. simpl. split; [eauto|].
    rewrite HQ. eapply wf_keys; eauto.
  - subst s2; simpl. rewrite length_insert. lia.
  - done.
  - done.
  - lia.
  - subst s2; simpl. apply list_lookup_insert_eq. lia.
  - left. apply list_elem_of_fmap. exists (arm - 1, n). split; [done|].
    by apply elem_of_map_to_list.
  - exists (set_Q q' s2). split_and!; [exact Hq' | done | exact Hlk].
Qed.
End UpdateProperties.

Lemma argmax_rand_ok (draw : nat) (a : list float64) :
  a <> [] -> Forall (fun x => isnan x = false) a ->
  exists i m, argmax_rand draw a = Ok i /\ 0 <= i < Z.of_nat (length a) /\
              np_max a = Ok m /\ a !! Z.to_nat i = Some m /\
              Forall (fun y => fleb y m = true) a.
Proof.
  intros Ha Hn.
  destruct (np_max_spec a Ha Hn) as (m & Hm & _ & _ & Hall).
  destruct (random_choice_ok draw (tied_arms a)) as (i & Hi & _).
  { by apply tied_arms_nonempty. }
  rewrite <- argmax_rand_tied in Hi.
  destruct (argmax_rand_range draw a i Hi) as (Hr & m' & Hm' & Hlk).
  exists i, m. split_and!; try done; try lia. congruence.
Qed.

(** * The claims *)

Section Claims.
Variables np_sqrt np_log10 : float64 -> float64.

Abbreviation update' := (update np_sqrt np_log10).
Abbreviation step' := (step np_sqrt np_log10).
Abbreviation run' := (run np_sqrt np_log10).

(** C10 (frame of [update]): on an arm in [1, narms] that [play] has
    selected, [update] returns, leaves every pull count and the whole
    round-to-arm history as they were, and appends exactly the reward to the
    reward log. *)
Theorem update_frame (arm : Z) (reward : float64) (s : UCB) :
  wf s -> 1 <= arm <= narms s -> played_before s arm ->
  exists s', update' arm reward s = (Ok tt, s') /\
    num_times_arm s' = num_times_arm s /\
    (forall a, pull_count s' a = pull_count s a) /\
    arm_at_t s' = arm_at_t s /\
    reward_at_t s' = reward_at_t s ++ [reward].
Proof.
  intros Hwf _ (n & Hn & _).
  destruct (update_returns np_sqrt np_log10 arm reward s Hwf) as [s' Hs']; [eauto|].
  destruct (update_untouched np_sqrt np_log10 arm reward s Hwf) as (Hc & Hh & Hl & _).
  rewrite Hs' in Hc, Hh, Hl. simpl in *.
  exists s'. split_and!; try done. intros a. unfold pull_count. by rewrite Hc.
Qed.

(** C7 (errors of [update]): with every arm of [1, narms] that is passed
    satisfying the play-before-update' obligation, [update] raises exactly
    when the arm lies outside [1, narms]; what it raises is Python's
    [IndexError] or [KeyError]. *)
Theorem update_raises_iff_out_of_range (arm : Z) (reward : float64) (s : UCB) :
  wf s -> (1 <= arm <= narms s -> played_before s arm) ->
  (is_Ok (update' arm reward s).1 = false <-> ~ (1 <= arm <= narms s)) /\
  (forall e, (update' arm reward s).1 = Raise e -> e = IndexError \/ e = KeyError).
Proof.
  intros Hwf Hpre.
  destruct (num_times_arm s !! (arm - 1)) as [n|] eqn:Hn.
  - destruct (update_returns np_sqrt np_log10 arm reward s Hwf) as [s' Hs']; [eauto|].
    rewrite Hs'. simpl. pose proof (wf_keys s Hwf _ _ Hn).
    split; [split; [done | lia] | done].
  - destruct (update_raises np_sqrt np_log10 arm reward s Hwf Hn) as (e & He & Hcase).
    rewrite He. simpl. split; [split; [intros _ | done] | by intros ? [= <-]].
    intros Hin. destruct (Hpre Hin) as (n & Hn' & _). congruence.
Qed.

(** C8 (what a failing call leaves behind): a constructor that raises
    leaves no object; an [update] that raises has logged its reward and
    changed nothing else; a [play] that raises has changed nothing on a new
    round, and on a round already on record has taken back the pull of the
    arm on record and changed nothing else. *)
Theorem failed_call_effect (c : call) (s : UCB) :
  wf s -> failed (step' c s).1 = true ->
  (step' c s).2 =
    match c with
    | Update _ reward => log_reward reward s
    | Play _ tround =>
        match arm_at_t s !! tround with
        | Some prev => undo_pull prev (pull_count s prev) s
        | None => s
        end
    end /\
  (forall n r q0 e, __init__ n r q0 = Raise e -> n < 0 /\ e = ValueError).
Proof.
  intros Hwf Hfail. split.
  - destruct c as [d t | arm r]; simpl in *.
    + rewrite play_eq in *.
      destruct (arm_at_t s !! t) as [prev|] eqn:Ht.
      * destruct (wf_hist s Hwf _ _ Ht) as [c Hc]. unfold pull_count.
        rewrite Hc in *. by destruct (argmax_rand d (Q s)).
      * by destruct (argmax_rand d (Q s)).
    + pose proof (update_eq np_sqrt np_log10 arm r s Hwf) as H.
      destruct (np_getitem (Q_mu s) (arm - 1)) as [mu|e].
      * destruct (num_times_arm s !! (arm - 1)) as [n|].
        -- destruct H as (q' & _ & H). by rewrite H in Hfail.
        -- by rewrite H.
      * by rewrite H.
  - intros n r q0 e. unfold __init__. by case_bool_decide; [intros [= <-] |].
Qed.

(** C9 (determinism): [update] is a function of its arguments and the
    state; [play] is a function of its arguments, the state and the outcome
    of the random draw, and does not depend on the draw when at most one arm
    attains the maximal score. *)
Theorem deterministic_up_to_draw (d1 d2 : nat) (tround : Z) (s : UCB) :
  (length (tied_arms (Q s)) <= 1)%nat ->
  play d1 tround s = play d2 tround s /\
  (forall d t s1 s2, s1 = s2 -> play d t s1 = play d t s2) /\
  (forall arm reward s1 s2, s1 = s2 -> update' arm reward s1 = update' arm reward s2).
Proof.
  intros Htied. split; [| split; by intros; subst].
  assert (Hsel : argmax_rand d1 (Q s) = argmax_rand d2 (Q s)).
  { rewrite !argmax_rand_tied. destruct (tied_arms (Q s)) as [|i [|j l]]; simpl in *.
    - done.
    - by rewrite !random_choice_singleton.
    - lia. }
  rewrite !play_eq, Hsel. done.
Qed.

(** A round played again on scores that can be compared: the pull count of
    the arm on record is first decremented, then the selected arm is counted
    and recorded; the sum of the pull counts after the replay and its
    [update] is what it was when the round had been played once. *)
Theorem replayed_round_counts_once (draw : nat) (tround prev : Z)
    (reward : float64) (s : UCB) :
  wf s -> comparable_scores s -> arm_at_t s !! tround = Some prev ->
  exists c a s1 s2,
    num_times_arm s !! prev = Some c /\
    play draw tround s = (Ok a, s1) /\
    s1 = record_pull tround (a - 1) (undo_pull prev c s) /\
    update' a reward s1 = (Ok tt, s2) /\
    total_pulls s1 = total_pulls s /\
    total_pulls s2 = total_pulls s.
Proof.
  intros Hwf [Hne Hnan] Ht.
  destruct (wf_hist s Hwf _ _ Ht) as [c Hc].
  destruct (argmax_rand_ok draw (Q s) Hne Hnan) as (i & m & Hi & Hr & _).
  pose proof (wf_play draw tround s Hwf) as Hwf1.
  rewrite play_eq, Ht, Hc, Hi in Hwf1. simpl in Hwf1.
  set (s1 := record_pull tround i (undo_pull prev c s)) in *.
  assert (Htot : total_pulls s1 = total_pulls s).
  { subst s1. rewrite total_pulls_record, total_pulls_undo by done. lia. }
  destruct (update_returns np_sqrt np_log10 (i + 1) reward s1 Hwf1) as [s2 Hs2].
  { replace (i + 1 - 1) with i by lia. subst s1. simpl.
    rewrite lookup_insert_eq. eauto. }
  exists c, (i + 1), s1, s2. split_and!; try done.
  - by rewrite play_eq, Ht, Hc, Hi.
  - by replace (i + 1 - 1) with i by lia.
  - destruct (update_untouched np_sqrt np_log10 (i + 1) reward s1 Hwf1) as (Hcnt & _).
    rewrite Hs2 in Hcnt. simpl in Hcnt. unfold total_pulls in *. by rewrite Hcnt.
Qed.



End Claims.

(** ** The selection of [play] *)

Lemma play_raises_on_nan (draw : nat) (tround : Z) (s : UCB) :
  wf s -> Exists (fun x => isnan x = true) (Q s) ->
  exists s', play draw tround s = (Raise ValueError, s').
Proof.
  intros Hwf Hnan. rewrite play_eq, argmax_rand_tied, (tied_arms_nan _ Hnan).
  rewrite random_choice_nil.
  destruct (arm_at_t s !! tround) as [prev|] eqn:Ht; [|eauto].
  destruct (wf_hist s Hwf _ _ Ht) as [c ->]. eauto.
Qed.

(** [play] returns when the scores can be compared, and what it returns is
    an arm of maximal score. *)
Lemma play_ok (draw : nat) (tround : Z) (s : UCB) :
  wf s -> comparable_scores s ->
  exists i m s', play draw tround s = (Ok (i + 1), s') /\
    1 <= i + 1 <= narms s /\
    np_max (Q s) = Ok m /\ Q s !! Z.to_nat i = Some m /\
    Forall (fun y => fleb y m = true) (Q s).
Proof.
  intros Hwf [Hne Hnan].
  destruct (argmax_rand_ok draw (Q s) Hne Hnan) as (i & m & Hi & Hr & Hm & Hlk & Hall).
  rewrite (wf_Q s Hwf) in Hr. rewrite play_eq, Hi.
  destruct (arm_at_t s !! tround) as [prev|] eqn:Ht.
  - destruct (wf_hist s Hwf _ _ Ht) as [c ->].
    eexists i, m, _. split_and!; try done; lia.
  - eexists i, m, _. split_and!; try done; lia.
Qed.

(** On a selector with at least one arm and no [nan] among the scores,
    every call to [play] returns one arm, 1-indexed in [1, narms], and
    whatever the random draw the score of that arm is the maximum of the
    scores: it equals [a.max()] and no score exceeds it. *)
Theorem play_returns_argmax (draw : nat) (tround : Z) (s : UCB) :
  wf s -> comparable_scores s ->
  exists arm m s', play draw tround s = (Ok arm, s') /\
    1 <= arm <= narms s /\
    np_max (Q s) = Ok m /\ Q s !! Z.to_nat (arm - 1) = Some m /\
    Forall (fun y => fleb y m = true) (Q s).
Proof.
  intros Hwf Hcmp.
  destruct (play_ok draw tround s Hwf Hcmp) as (i & m & s' & Hp & Hr & Hm & Hlk & Hall).
  exists (i + 1), m, s'. replace (i + 1 - 1) with i by lia. done.
Qed.

(** Every arm that attains the maximal score is the arm [play] returns for
    some outcome of the draw. *)
Lemma play_reaches_tied_arm (tround i : Z) (m : float64) (s : UCB) :
  wf s -> np_max (Q s) = Ok m -> isnan m = false ->
  0 <= i -> Q s !! Z.to_nat i = Some m ->
  exists draw, (play draw tround s).1 = Ok (i + 1).
Proof.
  intros Hwf Hm Hn Hi Hlk.
  destruct (random_choice_surj (tied_arms (Q s)) i) as [draw Hd].
  { by apply (elem_of_tied_arms (Q s) m). }
  exists draw. rewrite play_eq, argmax_rand_tied, Hd.
  destruct (arm_at_t s !! tround) as [prev|] eqn:Ht; [|done].
  by destruct (wf_hist s Hwf _ _ Ht) as [c ->].
Qed.

(** ** The constructor *)

Lemma init_fields (n : Z) (r q0 : float64) :
  0 <= n ->
  __init__ n r q0 =
  Ok (mkUCB n q0 r (replicate (Z.to_nat n) (of_int 0))
            (replicate (Z.to_nat n) q0) ∅ [] ∅).
Proof. intros Hn. unfold __init__. by rewrite bool_decide_eq_false_2 by lia. Qed.

(** C2 (construction), on [UCB(2, 1.0)]: the constructor sets every mean to
    [Q0] and leaves the pull counts empty, but sets every score to zero, not
    to [Q0]. *)
Theorem init_score_is_zero_not_Q0 :
  exists s, __init__ 2 (of_int 1) Q0_default = Ok s /\
    Q_mu s = [Q0_default; Q0_default] /\ num_times_arm s = ∅ /\
    Q s = [of_int 0; of_int 0] /\
    forall i x, Q s !! i = Some x -> x <> Q0_default.
Proof.
  eexists. split; [reflexivity|]. simpl. split_and!; try done.
  intros [|[|i]] x; simpl; intros [= <-] || done; done.
Qed.

Section DefaultQ0.
Variables np_sqrt np_log10 : float64 -> float64.

Abbreviation update' := (update np_sqrt np_log10).

(** The first round on a new selector with the default [Q0]: [inf * 0] is
    [nan], and so are the mean and the score of the arm after [update]. *)
Lemma first_round_default_Q0 (n : Z) (r reward : float64) (draw : nat)
    (tround : Z) :
  1 <= n ->
  exists s0 a s1 s2,
    __init__ n r Q0_default = Ok s0 /\
    play draw tround s0 = (Ok a, s1) /\ 1 <= a <= n /\
    update' a reward s1 = (Ok tt, s2) /\ wf s2 /\
    Q_mu s2 !! Z.to_nat (a - 1) = Some NaN /\
    Q s2 !! Z.to_nat (a - 1) = Some NaN.
Proof.
  intros Hn. eexists. rewrite init_fields by lia.
  set (s0 := mkUCB _ _ _ _ _ _ _ _).
  assert (Hwf0 : wf s0) by (apply (wf_init n r Q0_default); apply init_fields; lia).
  destruct (play_ok draw tround s0 Hwf0) as (i & m & s1 & Hp & Hr & _).
  { split; simpl.
    - destruct (Z.to_nat n) eqn:E; [lia | done].
    - by apply Forall_replicate. }
  pose proof (wf_play draw tround s0 Hwf0) as Hwf1. rewrite Hp in Hwf1.
  assert (Hs1 : s1 = record_pull tround i s0).
  { rewrite play_eq in Hp. simpl in Hp. rewrite lookup_empty in Hp.
    destruct (argmax_rand draw _); [|done]. injection Hp as Hi <-. f_equal. lia. }
  simpl in Hr, Hwf1.
  destruct (update_arm np_sqrt np_log10 (i + 1) 1 reward PInf s1 Hwf1)
    as (s2 & Hu & Hmu & Hq).
  { replace (i + 1 - 1) with i by lia. subst s1. simpl.
    by rewrite lookup_insert_eq, lookup_empty. }
  { lia. }
  { replace (i + 1 - 1) with i by lia. subst s1. simpl.
    apply lookup_replicate_2. lia. }
  exists (i + 1), s1, s2. split_and!; try done; try lia.
  - pose proof (wf_update np_sqrt np_log10 (i + 1) reward s1 Hwf1) as H.
    by rewrite Hu in H.
  - rewrite Hmu. apply list_lookup_insert_eq.
    pose proof (wf_Q_mu s1 Hwf1) as HQm. subst s1. simpl in *. lia.
  - rewrite Hq. unfold ucb_score. by rewrite fadd_nan_r.
Qed.

(** C1 (unpulled-arm priority), on the default [Q0]: whatever the number
    of arms, the rewards and the draws, the first [play] returns an arm,
    its [update] turns the score of that arm into [nan], and the second
    [play] raises [ValueError] instead of returning another arm. *)
Theorem default_Q0_second_play_raises (n : Z) (r reward : float64)
    (d1 d2 : nat) (t1 t2 : Z) :
  1 <= n ->
  exists s0 a s1 s2,
    __init__ n r Q0_default = Ok s0 /\
    play d1 t1 s0 = (Ok a, s1) /\ 1 <= a <= n /\
    update' a reward s1 = (Ok tt, s2) /\
    Q s2 !! Z.to_nat (a - 1) = Some NaN /\
    (play d2 t2 s2).1 = Raise ValueError.
Proof.
  intros Hn.
  destruct (first_round_default_Q0 n r reward d1 t1 Hn)
    as (s0 & a & s1 & s2 & H0 & Hp & Ha & Hu & Hwf2 & _ & Hq).
  exists s0, a, s1, s2. split_and!; try done; try lia.
  destruct (play_raises_on_nan d2 t2 s2 Hwf2) as [s' ->]; [|done].
  apply Exists_exists. exists NaN. split; [|done].
  by eapply list_elem_of_lookup_2.
Qed.

(** C4 (mean reward), on the default [Q0]: after the first [play] and its
    [update] with any reward, the mean of the arm is [nan], not the
    reward. *)
Theorem default_Q0_mean_is_nan (n : Z) (r reward : float64) (draw : nat)
    (tround : Z) :
  1 <= n ->
  exists s0 a s1 s2,
    __init__ n r Q0_default = Ok s0 /\
    play draw tround s0 = (Ok a, s1) /\
    update' a reward s1 = (Ok tt, s2) /\
    Q_mu s2 !! Z.to_nat (a - 1) = Some NaN.
Proof.
  intros Hn.
  destruct (first_round_default_Q0 n r reward draw tround Hn)
    as (s0 & a & s1 & s2 & H0 & Hp & Ha & Hu & _ & Hmu & _).
  by exists s0, a, s1, s2.
Qed.
(** C5 (round re-issue), on the default [Q0]: [play(t)] returns an arm and
    its [update] returns, the sum of the pull counts being one; [play(t)]
    called again takes the pull of that arm back and then raises
    [ValueError] before it selects, counts or records an arm, so that the
    sum of the pull counts is zero, not the one of a round played once. *)
Theorem default_Q0_replay_loses_pull (n : Z) (r reward : float64)
    (d1 d2 : nat) (tround : Z) :
  1 <= n ->
  exists s0 a s1 s2 s3,
    __init__ n r Q0_default = Ok s0 /\
    play d1 tround s0 = (Ok a, s1) /\
    update' a reward s1 = (Ok tt, s2) /\
    arm_at_t s2 !! tround = Some (a - 1) /\
    pull_count s2 (a - 1) = 1 /\ total_pulls s2 = 1 /\
    play d2 tround s2 = (Raise ValueError, s3) /\
    pull_count s3 (a - 1) = 0 /\ total_pulls s3 = 0.
Proof.
  intros Hn.
  destruct (first_round_default_Q0 n r reward d1 tround Hn)
    as (s0 & a & s1 & s2 & H0 & Hp & Ha & Hu & Hwf2 & _ & Hq).
  pose proof (wf_init _ _ _ _ H0) as Hwf0.
  pose proof (wf_play d1 tround s0 Hwf0) as Hwf1. rewrite Hp in Hwf1. simpl in Hwf1.
  assert (Hs1 : s1 = record_pull tround (a - 1) s0 /\ total_pulls s0 = 0 /\
                arm_at_t s0 = ∅ /\ num_times_arm s0 = ∅).
  { pose proof H0 as H0'. rewrite init_fields in H0' by lia. injection H0' as <-.
    rewrite play_eq in Hp. simpl in Hp. rewrite lookup_empty in Hp.
    destruct (argmax_rand d1 _) as [i|]; [|done]. injection Hp as <- <-.
    by replace (i + 1 - 1) with i by lia. }
  destruct Hs1 as (Hs1 & Ht0 & Hh0 & Hc0).
  destruct (update_untouched np_sqrt np_log10 a reward s1 Hwf1) as (Hc2 & Hh2 & _).
  rewrite Hu in Hc2, Hh2. cbn [snd] in Hc2, Hh2.
  assert (Hh : arm_at_t s2 !! tround = Some (a - 1)).
  { rewrite Hh2, Hs1. simpl. by rewrite lookup_insert_eq. }
  assert (Hc : num_times_arm s2 !! (a - 1) = Some 1).
  { rewrite Hc2, Hs1. simpl. by rewrite lookup_insert_eq, Hc0, lookup_empty. }
  assert (Htot : total_pulls s2 = 1).
  { unfold total_pulls. rewrite Hc2. fold (total_pulls s1).
    rewrite Hs1, total_pulls_record. lia. }
  assert (Hraise : argmax_rand d2 (Q s2) = Raise ValueError).
  { rewrite argmax_rand_tied, tied_arms_nan; [done|].
    apply Exists_exists. exists NaN. split; [by eapply list_elem_of_lookup_2 | done]. }
  exists s0, a, s1, s2, (undo_pull (a - 1) 1 s2). split_and!; try done.
  - unfold pull_count. by rewrite Hc.
  - by rewrite play_eq, Hh, Hc, Hraise.
  - unfold pull_count, undo_pull. simpl. by rewrite lookup_insert_eq.
  - rewrite total_pulls_undo by done. lia.
Qed.
End DefaultQ0.

(** ** The running mean with a finite initial value *)

Section MeanReward.
Variables np_sqrt np_log10 : float64 -> float64.

Abbreviation round_on' := (round_on np_sqrt np_log10).
Abbreviation rounds_on' := (rounds_on np_sqrt np_log10).

(** One round on the arm [a], on a round number not on record. *)
Lemma round_on_mean (a tround k : Z) (draw : nat) (m r S : Qc) (s s' : UCB) :
  wf s -> 0 <= k -> pull_count s (a - 1) = k ->
  Q_mu s !! Z.to_nat (a - 1) = Some (Fin m) ->
  (m * Z2Qc k = S)%Qc ->
  arm_at_t s !! tround = None ->
  round_on' a draw tround (Fin r) s = Some s' ->
  exists m', wf s' /\ pull_count s' (a - 1) = k + 1 /\
    Q_mu s' !! Z.to_nat (a - 1) = Some (Fin m') /\
    (m' * Z2Qc (k + 1) = S + r)%Qc /\
    arm_at_t s' = <[tround := a - 1]> (arm_at_t s).
Proof.
  intros Hwf Hk Hcnt Hmu HS Hfresh. unfold round_on.
  pose proof (wf_play draw tround s Hwf) as Hwf1.
  rewrite play_eq, Hfresh in *.
  destruct (argmax_rand draw (Q s)) as [i|e]; [|done]. simpl in Hwf1.
  case_bool_decide as Ha; [|done]. subst a.
  replace (i + 1 - 1) with i in * by lia.
  set (s1 := record_pull tround i s) in *.
  assert (Hc1 : num_times_arm s1 !! (i + 1 - 1) = Some (k + 1)).
  { replace (i + 1 - 1) with i by lia. subst s1. simpl.
    rewrite lookup_insert_eq. unfold pull_count in Hcnt. by rewrite Hcnt. }
  destruct (update_arm np_sqrt np_log10 (i + 1) (k + 1) (Fin r) (Fin m) s1 Hwf1 Hc1)
    as (s2 & Hu & Hmu2 & _).
  { lia. }
  { by replace (i + 1 - 1) with i by lia. }
  rewrite Hu. intros [= <-].
  destruct (fdiv_mean_step m r S k Hk HS) as (m' & Hv & Hm').
  rewrite Hv in Hmu2. replace (i + 1 - 1) with i in * by lia.
  destruct (update_untouched np_sqrt np_log10 (i + 1) (Fin r) s1 Hwf1)
    as (Hcnt2 & Hh2 & _).
  rewrite Hu in Hcnt2, Hh2. cbn [snd] in Hcnt2, Hh2.
  exists m'. split_and!.
  - pose proof (wf_update np_sqrt np_log10 (i + 1) (Fin r) s1 Hwf1) as H.
    by rewrite Hu in H.
  - unfold pull_count. by rewrite Hcnt2, Hc1.
  - rewrite Hmu2. apply list_lookup_insert_eq. by eapply lookup_lt_Some.
  - done.
  - by rewrite Hh2.
Qed.

Lemma rounds_on_mean (a : Z) (rounds : list (nat * Z * Qc)) :
  forall (s s' : UCB) (k : Z) (m S : Qc),
  wf s -> 0 <= k -> pull_count s (a - 1) = k ->
  Q_mu s !! Z.to_nat (a - 1) = Some (Fin m) ->
  (m * Z2Qc k = S)%Qc ->
  NoDup (map (fun x => x.1.2) rounds) ->
  Forall (fun x => arm_at_t s !! x.1.2 = None) rounds ->
  rounds_on' a rounds s = Some s' ->
  exists m', Q_mu s' !! Z.to_nat (a - 1) = Some (Fin m') /\
    (m' * Z2Qc (k + Z.of_nat (length rounds)) = S + Qc_sum (map snd rounds))%Qc.
Proof.
  induction rounds as [|[[d t] r] rounds IH];
    intros s s' k m S Hwf Hk Hcnt Hmu HS Hnd Hfresh Hrun; simpl in *.
  - injection Hrun as <-. exists m. split; [done|].
    rewrite Z.add_0_r, HS. by rewrite Qcplus_0_r.
  - destruct (round_on' a d t (Fin r) s) as [s1|] eqn:Hround; [|done].
    inversion Hnd as [|? ? Ht Hnd']; subst.
    inversion Hfresh as [|? ? Hft Hfresh']; subst. simpl in Hft.
    destruct (round_on_mean a t _ d m r _ s s1 Hwf Hk eq_refl Hmu eq_refl Hft Hround)
      as (m1 & Hwf1 & Hc1 & Hmu1 & Hm1 & Hh1).
    destruct (IH s1 s' (pull_count s (a - 1) + 1) m1
                 (m * Z2Qc (pull_count s (a - 1)) + r)%Qc)
      as (m' & Hmu' & Hm'); try done; try lia.
    + rewrite Hh1. apply Forall_forall. intros x Hx.
      rewrite lookup_insert_ne.
      * by apply (proj1 (Forall_forall _ _) Hfresh').
      * intros ->. apply Ht. apply list_elem_of_fmap. by exists x.
    + exists m'. split; [done|].
      replace (pull_count s (a - 1) + Z.of_nat (S (length rounds)))
        with (pull_count s (a - 1) + 1 + Z.of_nat (length rounds)) by lia.
      rewrite Hm'. by rewrite Qcplus_assoc.
Qed.

(** The recurrence of the running mean, in exact arithmetic only: with a
    finite [Q0] and rational rewards, [k >= 1] rounds on the arm [a] alone,
    their numbers new and distinct, leave the arithmetic mean of the rewards.
    This is a fact about the formula of [update], not about the binary64
    program, which rounds every operation and overflows to an infinity. *)
Theorem mean_reward_finite_Q0 (n a : Z) (r : float64) (q0 : Qc)
    (rounds : list (nat * Z * Qc)) (s0 s' : UCB) :
  __init__ n r (Fin q0) = Ok s0 -> 1 <= a <= n ->
  NoDup (map (fun x => x.1.2) rounds) -> rounds <> [] ->
  rounds_on' a rounds s0 = Some s' ->
  Q_mu s' !! Z.to_nat (a - 1) =
    Some (Fin (Qc_sum (map snd rounds) / Z2Qc (Z.of_nat (length rounds)))).
Proof.
  intros Hinit Ha Hnd Hne Hrun.
  pose proof (wf_init _ _ _ _ Hinit) as Hwf.
  rewrite init_fields in Hinit by lia. injection Hinit as <-.
  destruct (rounds_on_mean a rounds _ s' 0 q0 (Q2Qc 0) Hwf) as (m' & Hmu & Hm');
    try done.
  - simpl. apply lookup_replicate_2. lia.
  - apply Qcmult_0_r.
  - apply Forall_forall. intros x _. simpl. apply lookup_empty.
  - rewrite Hmu. do 2 f_equal. rewrite Qcplus_0_l in Hm'. rewrite <- Hm'.
    simpl. rewrite Qcdiv_mult_l; [done|].
    apply Z2Qc_pos_nonzero. destruct rounds; [done | simpl; lia].
Qed.
End MeanReward.

(** * The claims on concrete selectors *)

Lemma wf_selector_2 (r q0 : float64) : wf (selector 2 r q0).
Proof. by apply (wf_init 2 r q0). Qed.

Lemma wf_played_once : wf played_once.
Proof. apply wf_play, wf_selector_2. Qed.

Lemma comparable_played_once : comparable_scores played_once.
Proof. split; [done | by repeat constructor]. Qed.

Lemma played_before_played_once : played_before played_once 1.
Proof. exists 1. split; [by vm_compute | lia]. Qed.

(** C10 on [update(1, 1.0)] after [play(1)] has selected the arm 1. *)
Lemma update_frame_witness :
  exists s', update (fun x => x) (fun x => x) 1 (of_int 1) played_once = (Ok tt, s') /\
    num_times_arm s' = num_times_arm played_once /\
    (forall a, pull_count s' a = pull_count played_once a) /\
    arm_at_t s' = arm_at_t played_once /\
    reward_at_t s' = reward_at_t played_once ++ [of_int 1].
Proof.
  apply (update_frame (fun x => x) (fun x => x) 1 (of_int 1) played_once).
  - exact wf_played_once.
  - vm_compute. split; discriminate.
  - exact played_before_played_once.
Defined.

(** C7 on [update(1, 1.0)] after [play(1)] has selected the arm 1. *)
Lemma update_raises_iff_out_of_range_witness :
  (is_Ok (update (fun x => x) (fun x => x) 1 (of_int 1) played_once).1 = false <->
   ~ (1 <= 1 <= narms played_once)) /\
  (forall e, (update (fun x => x) (fun x => x) 1 (of_int 1) played_once).1 = Raise e ->
             e = IndexError \/ e = KeyError).
Proof.
  apply (update_raises_iff_out_of_range (fun x => x) (fun x => x) 1 (of_int 1) played_once).
  - exact wf_played_once.
  - intros _. exact played_before_played_once.
Defined.

(** [update] on the arms 0 and 3 of a selector with two arms: the index -1
    addresses the last cell of the array and the dict has no such key; the
    index 2 is outside the array. *)
Example update_out_of_range (sq lg : float64 -> float64) :
  (update sq lg 0 (of_int 1) played_once).1 = Raise KeyError /\
  (update sq lg 3 (of_int 1) played_once).1 = Raise IndexError.
Proof. split; reflexivity. Qed.

(** C8 on [update(3, 1.0)], which raises on a selector with two arms. *)
Lemma failed_call_effect_witness :
  (step (fun x => x) (fun x => x) (Update 3 (of_int 1)) played_once).2 =
    log_reward (of_int 1) played_once /\
  (forall n r q0 e, __init__ n r q0 = Raise e -> n < 0 /\ e = ValueError).
Proof.
  apply (failed_call_effect (fun x => x) (fun x => x) (Update 3 (of_int 1)) played_once).
  - exact wf_played_once.
  - reflexivity.
Defined.

(** C8, counterexample: [update(3, 1.0)] on a new selector with two arms
    raises [IndexError], and the reward log has grown by the reward. *)
Lemma failed_update_logs_reward :
  exists s0 s1,
    __init__ 2 (of_int 1) Q0_default = Ok s0 /\
    (forall sq lg, update sq lg 3 (of_int 1) s0 = (Raise IndexError, s1)) /\
    reward_at_t s0 = [] /\ reward_at_t s1 = [of_int 1].
Proof. eexists _, _. split_and!; [reflexivity | intros; reflexivity | done | done]. Qed.

(** C9 on a selector with one arm: two draws, one result. *)
Lemma deterministic_up_to_draw_witness :
  play 0 5 (selector 1 (of_int 1) (of_int 0)) =
  play 7 5 (selector 1 (of_int 1) (of_int 0)) /\
  (forall d t s1 s2, s1 = s2 -> play d t s1 = play d t s2) /\
  (forall arm reward s1 s2, s1 = s2 ->
     update (fun x => x) (fun x => x) arm reward s1 =
     update (fun x => x) (fun x => x) arm reward s2).
Proof.
  apply (deterministic_up_to_draw (fun x => x) (fun x => x) 0 7 5).
  vm_compute. lia.
Defined.

(** C9, counterexample: on a new selector with two arms, both tied, two
    calls [play(1)] on the same state return different arms. *)
Lemma play_depends_on_draw :
  exists s0,
    __init__ 2 (of_int 1) Q0_default = Ok s0 /\
    (play 0 1 s0).1 = Ok 1 /\ (play 1 1 s0).1 = Ok 2.
Proof. eexists. split_and!; reflexivity. Qed.

(** [play(1)] called again after it has selected the arm 1, both scores
    still at zero. *)
Lemma replayed_round_counts_once_witness :
  exists c a s1 s2,
    num_times_arm played_once !! 0 = Some c /\
    play 1 1 played_once = (Ok a, s1) /\
    s1 = record_pull 1 (a - 1) (undo_pull 0 c played_once) /\
    update (fun x => x) (fun x => x) a (of_int 1) s1 = (Ok tt, s2) /\
    total_pulls s1 = total_pulls played_once /\
    total_pulls s2 = total_pulls played_once.
Proof.
  apply (replayed_round_counts_once (fun x => x) (fun x => x) 1 1 0 (of_int 1) played_once).
  - exact wf_played_once.
  - exact comparable_played_once.
  - by vm_compute.
Defined.



(** [play(2)] with both scores at zero. *)
Lemma play_returns_argmax_witness :
  exists arm m s', play 1 2 played_once = (Ok arm, s') /\
    1 <= arm <= narms played_once /\
    np_max (Q played_once) = Ok m /\ Q played_once !! Z.to_nat (arm - 1) = Some m /\
    Forall (fun y => fleb y m = true) (Q played_once).
Proof.
  apply (play_returns_argmax 1 2 played_once).
  - exact wf_played_once.
  - exact comparable_played_once.
Defined.

(** C3 (argmax selection), on [UCB(1, 1.0)] with the default [Q0]: [play(1)]
    returns the arm 1 and [update(1, 1.0)] returns; the next call to [play]
    returns no arm: it raises [ValueError], whatever the random draw and
    whatever [np.sqrt] and [np.log10] compute. *)
Lemma play_raises_after_first_update :
  exists s0 s1,
    __init__ 1 (of_int 1) Q0_default = Ok s0 /\
    play 0 1 s0 = (Ok 1, s1) /\
    forall sq lg draw, exists s2,
      update sq lg 1 (of_int 1) s1 = (Ok tt, s2) /\
      (play draw 2 s2).1 = Raise ValueError.
Proof.
  eexists _, _. split; [reflexivity|]. split; [by vm_compute|].
  intros sq lg draw.
  destruct (first_round_default_Q0 sq lg 1 (of_int 1) (of_int 1) 0 1)
    as (s0 & a & s1 & s2 & H0 & Hp & Ha & Hu & Hwf2 & _ & Hq); [lia|].
  injection H0 as <-. assert (a = 1) as -> by lia.
  vm_compute in Hp. injection Hp as <-.
  exists s2. split; [exact Hu|].
  destruct (play_raises_on_nan draw 2 s2 Hwf2) as [s' ->]; [|done].
  apply Exists_exists. exists NaN. split; [by eapply list_elem_of_lookup_2 | done].
Qed.

(** C1 on [UCB(2, 1.0)]. *)
Lemma default_Q0_second_play_raises_witness :
  exists s0 a s1 s2,
    __init__ 2 (of_int 1) Q0_default = Ok s0 /\
    play 0 1 s0 = (Ok a, s1) /\ 1 <= a <= 2 /\
    update (fun x => x) (fun x => x) a (of_int 1) s1 = (Ok tt, s2) /\
    Q s2 !! Z.to_nat (a - 1) = Some NaN /\
    (play 0 2 s2).1 = Raise ValueError.
Proof.
  apply (default_Q0_second_play_raises (fun x => x) (fun x => x) 2 (of_int 1) (of_int 1) 0 0 1 2).
  lia.
Defined.

(** C4 on [UCB(1, 1.0)]. *)
Lemma default_Q0_mean_is_nan_witness :
  exists s0 a s1 s2,
    __init__ 1 (of_int 1) Q0_default = Ok s0 /\
    play 0 1 s0 = (Ok a, s1) /\
    update (fun x => x) (fun x => x) a (of_int 1) s1 = (Ok tt, s2) /\
    Q_mu s2 !! Z.to_nat (a - 1) = Some NaN.
Proof.
  apply (default_Q0_mean_is_nan (fun x => x) (fun x => x) 1 (of_int 1) (of_int 1) 0 1).
  lia.
Defined.

(** * Further properties of the methods *)

(** ** [argmax_rand] *)

Lemma nan_or_comparable (a : list float64) :
  Exists (fun x => isnan x = true) a \/ Forall (fun x => isnan x = false) a.
Proof.
  induction a as [|x a [IH | IH]].
  - right. constructor.
  - left. by right.
  - destruct (isnan x) eqn:Hx; [left; by left | right; by constructor].
Qed.

(** X1: [argmax_rand] raises exactly on an empty array and on an array that
    holds a [nan], and what it raises is [ValueError]. *)
Theorem argmax_rand_raises_iff (draw : nat) (a : list float64) :
  (argmax_rand draw a = Raise ValueError <->
   a = [] \/ Exists (fun x => isnan x = true) a) /\
  (forall e, argmax_rand draw a = Raise e -> e = ValueError).
Proof.
  assert (Hbad : a = [] \/ Exists (fun x => isnan x = true) a ->
                 argmax_rand draw a = Raise ValueError).
  { intros [-> | Hnan]; [done|].
    by rewrite argmax_rand_tied, (tied_arms_nan _ Hnan). }
  assert (Hgood : forall e, argmax_rand draw a = Raise e ->
                  a = [] \/ Exists (fun x => isnan x = true) a).
  { intros e He. destruct a as [|x a]; [by left | right].
    destruct (nan_or_comparable (x :: a)) as [Hnan | Hcmp]; [done|].
    destruct (argmax_rand_ok draw (x :: a)) as (i & _ & Hi & _); [done | done |].
    congruence. }
  split; [split; [by apply Hgood | by apply Hbad] |].
  intros e He. rewrite (Hbad (Hgood e He)) in He. congruence.
Qed.

(** X2: the indices [argmax_rand] can return are exactly the indices of the
    cells that hold the maximum of the array, the maximum being no [nan]: no
    other index is ever returned and none of them is left out. *)
Theorem argmax_rand_candidates (a : list float64) (i : Z) :
  (exists draw, argmax_rand draw a = Ok i) <->
  0 <= i /\ exists m, np_max a = Ok m /\ isnan m = false /\
                       a !! Z.to_nat i = Some m.
Proof.
  split.
  - intros [draw Hd]. rewrite argmax_rand_tied in Hd.
    apply random_choice_elem in Hd.
    destruct (np_max a) as [m|e] eqn:Hm.
    + destruct (proj1 (elem_of_tied_arms a m i Hm) Hd) as (H0 & Hlk & Hn). eauto.
    + unfold tied_arms in Hd. rewrite Hm in Hd. by apply elem_of_nil in Hd.
  - intros (H0 & m & Hm & Hn & Hlk).
    destruct (random_choice_surj (tied_arms a) i) as [draw Hd].
    { by apply (elem_of_tied_arms a m). }
    exists draw. by rewrite argmax_rand_tied.
Qed.

(** ** What [play] leaves alone *)

Lemma play_untouched (draw : nat) (tround : Z) (s : UCB) :
  let s' := (play draw tround s).2 in
  Q s' = Q s /\ Q_mu s' = Q_mu s /\ reward_at_t s' = reward_at_t s /\
  narms s' = narms s /\ rho s' = rho s /\ Q0 s' = Q0 s.
Proof.
  rewrite play_eq.
  destruct (arm_at_t s !! tround) as [prev|];
    [destruct (num_times_arm s !! prev) as [c|] |];
    try destruct (argmax_rand draw (Q s)); done.
Qed.

(** X3: [play] never writes the scores, the means, the reward log or the
    configuration, whether it returns or raises. *)
Theorem play_frame (draw : nat) (tround : Z) (s : UCB) :
  Q (play draw tround s).2 = Q s /\
  Q_mu (play draw tround s).2 = Q_mu s /\
  reward_at_t (play draw tround s).2 = reward_at_t s /\
  narms (play draw tround s).2 = narms s /\
  rho (play draw tround s).2 = rho s /\
  Q0 (play draw tround s).2 = Q0 s.
Proof. apply play_untouched. Qed.

Lemma play_effect (draw : nat) (tround arm : Z) (s s' : UCB) :
  wf s -> play draw tround s = (Ok arm, s') ->
  (forall j, pull_count s' j =
             pull_count s j
             + (if bool_decide (j = arm - 1) then 1 else 0)
             - (if bool_decide (arm_at_t s !! tround = Some j) then 1 else 0)) /\
  arm_at_t s' = <[tround := arm - 1]> (arm_at_t s).
Proof.
  intros Hwf. rewrite play_eq.
  destruct (arm_at_t s !! tround) as [prev|] eqn:Ht.
  - destruct (wf_hist s Hwf _ _ Ht) as [c Hc]. rewrite Hc.
    destruct (argmax_rand draw (Q s)) as [i|]; [|done]. intros [= <- <-].
    replace (i + 1 - 1) with i by lia. split; [|done].
    intros j. unfold pull_count. simpl.
    destruct (decide (j = i)) as [Hji | Hji];
      destruct (decide (j = prev)) as [Hjp | Hjp];
      repeat case_bool_decide; simplify_map_eq; lia.
  - destruct (argmax_rand draw (Q s)) as [i|]; [|done]. intros [= <- <-].
    replace (i + 1 - 1) with i by lia. split; [|done].
    intros j. unfold pull_count. simpl.
    destruct (decide (j = i)) as [Hji | Hji];
      repeat case_bool_decide; simplify_map_eq; lia.
Qed.

(** X4: how [play] moves the pull counts when it returns: the returned arm
    gains one pull, the arm on record for the round (if the round is played
    again) loses one, every other count stays; the history then records the
    returned arm for the round and keeps every other round. *)
Theorem play_pull_counts (draw : nat) (tround arm : Z) (s s' : UCB) :
  wf s -> play draw tround s = (Ok arm, s') ->
  (forall j, pull_count s' j =
             pull_count s j
             + (if bool_decide (j = arm - 1) then 1 else 0)
             - (if bool_decide (arm_at_t s !! tround = Some j) then 1 else 0)) /\
  arm_at_t s' = <[tround := arm - 1]> (arm_at_t s).
Proof. apply play_effect. Qed.

(** ** What [update] computes *)

Lemma np_getitem_cases (a : list float64) (i : Z) :
  match np_getitem a i with
  | Ok _ => - Z.of_nat (length a) <= i < Z.of_nat (length a)
  | Raise e => e = IndexError /\
               ~ (- Z.of_nat (length a) <= i < Z.of_nat (length a))
  end.
Proof.
  unfold np_getitem, np_index. cbv zeta.
  case_bool_decide as H1; simpl.
  - destruct (lookup_lt_is_Some_2 a (Z.to_nat i)) as [x ->]; lia.
  - case_bool_decide as H2; simpl.
    + destruct (lookup_lt_is_Some_2 a (Z.to_nat (i + Z.of_nat (length a))))
        as [x ->]; lia.
    + split; [done | lia].
Qed.

Section UpdateEffects.
Variables np_sqrt np_log10 : float64 -> float64.

Abbreviation rescore' := (rescore np_sqrt np_log10).
Abbreviation update' := (update np_sqrt np_log10).
Abbreviation step' := (step np_sqrt np_log10).
Abbreviation run' := (run np_sqrt np_log10).

(** The loop of [update] leaves alone the cell of every arm that has no
    positive pull count. *)
Lemma for_each_rescore_miss (keys : list Z) (s : UCB) (j : nat) :
  Forall (fun k => is_Some (num_times_arm s !! k) /\
                   0 <= k < Z.of_nat (length (Q s))) keys ->
  length (Q_mu s) = length (Q s) ->
  (forall n, num_times_arm s !! Z.of_nat j = Some n -> n <= 0) ->
  exists q', for_each keys rescore' s = (Ok tt, set_Q q' s) /\
             q' !! j = Q s !! j.
Proof.
  revert s. induction keys as [|k keys IH]; intros s Hkeys Hlen Hj.
  - exists (Q s). by rewrite set_Q_id.
  - inversion Hkeys as [|? ? [[nk Hnk] Hk] Hrest]; subst.
    destruct (lookup_lt_is_Some_2 (Q_mu s) (Z.to_nat k)) as [muk Hmuk]; [lia|].
    pose proof (rescore_eq np_sqrt np_log10 k nk muk s Hnk Hk Hlen Hmuk) as Hstep.
    set (s1 := if bool_decide (0 < nk) then set_Q _ s else s) in Hstep.
    assert (Hsame : num_times_arm s1 = num_times_arm s /\ Q_mu s1 = Q_mu s /\
                    length (Q s1) = length (Q s) /\ set_Q (Q s1) s = s1 /\
                    Q s1 !! j = Q s !! j).
    { subst s1. case_bool_decide as Hpos; simpl;
        rewrite ?length_insert, ?set_Q_id; split_and!; try done.
      apply list_lookup_insert_ne. intros <-.
      rewrite Z2Nat.id in Hj by lia. specialize (Hj _ Hnk). lia. }
    destruct Hsame as (Hc1 & Hm1 & Hl1 & Hs1 & Hq1).
    destruct (IH s1) as (q' & Hq' & Hlk).
    { rewrite Hc1, Hl1. done. }
    { by rewrite Hm1, Hl1. }
    { by rewrite Hc1. }
    exists q'. simpl. unfold_M. rewrite Hstep, Hq'. split; [|congruence].
    f_equal. rewrite <- Hs1. done.
Qed.

(** [update] past its two lookups: the new mean is stored, then the loop
    runs over the keys of the pull counts. *)
Lemma update_unfold (arm n : Z) (reward mu : float64) (s : UCB) :
  wf s -> np_getitem (Q_mu s) (arm - 1) = Ok mu ->
  num_times_arm s !! (arm - 1) = Some n ->
  update' arm reward s =
  for_each (map fst (map_to_list (num_times_arm s))) rescore'
    (set_Q_mu (<[Z.to_nat (arm - 1) :=
                 fdiv (fadd (fmul mu (of_int (n - 1))) reward) (of_int n)]>
                 (Q_mu s))
              (log_reward reward s)).
Proof.
  intros Hwf Hmu Hn. pose proof (wf_keys s Hwf _ _ Hn) as Hrange.
  unfold update. unfold_M. simpl. rewrite Hmu, Hn. simpl.
  rewrite np_setitem_in by (rewrite (wf_Q_mu s Hwf); lia). done.
Qed.

Lemma keys_in_range (s s2 : UCB) :
  wf s -> num_times_arm s2 = num_times_arm s -> length (Q s2) = length (Q s) ->
  Forall (fun k => is_Some (num_times_arm s2 !! k) /\
                   0 <= k < Z.of_nat (length (Q s2)))
         (map fst (map_to_list (num_times_arm s))).
Proof.
  intros Hwf Hc Hl. apply Forall_forall. intros k Hk.
  apply list_elem_of_fmap in Hk as ([k' n'] & -> & Hk).
  apply elem_of_map_to_list in Hk. simpl. rewrite Hc, Hl. split; [eauto|].
  rewrite (wf_Q s Hwf). eapply wf_keys; eauto.
Qed.

(** A returning [update]: the mean of its arm is replaced, and the score of
    every arm with a positive pull count is recomputed from its mean. *)
Lemma update_effect (arm : Z) (reward : float64) (s s' : UCB) :
  wf s -> update' arm reward s = (Ok tt, s') ->
  exists mu n,
    Q_mu s !! Z.to_nat (arm - 1) = Some mu /\
    num_times_arm s !! (arm - 1) = Some n /\
    Q_mu s' = <[Z.to_nat (arm - 1) :=
                fdiv (fadd (fmul mu (of_int (n - 1))) reward) (of_int n)]>
                (Q_mu s) /\
    forall j : nat,
      Q s' !! j =
      match num_times_arm s !! Z.of_nat j, Q_mu s' !! j with
      | Some c, Some m =>
          if bool_decide (0 < c)
          then Some (ucb_score np_sqrt np_log10 (rho s) (size (arm_at_t s)) c m)
          else Q s !! j
      | _, _ => Q s !! j
      end.
Proof.
  intros Hwf Hu. pose proof (update_eq np_sqrt np_log10 arm reward s Hwf) as Heq.
  destruct (np_getitem (Q_mu s) (arm - 1)) as [mu|e] eqn:Hmu; [|congruence].
  destruct (num_times_arm s !! (arm - 1)) as [n|] eqn:Hn; [|congruence].
  clear Heq. pose proof (wf_keys s Hwf _ _ Hn) as Hrange.
  pose proof (wf_Q s Hwf) as HQ. pose proof (wf_Q_mu s Hwf) as HQmu.
  destruct (np_getitem_in (Q_mu s) (arm - 1)) as (mu' & Hlk & Hget); [lia|].
  assert (mu' = mu) as -> by congruence.
  rewrite (update_unfold arm n reward mu s Hwf Hmu Hn) in Hu.
  set (s2 := set_Q_mu _ _) in Hu.
  assert (Hkeys := keys_in_range s s2 Hwf eq_refl eq_refl).
  assert (Hlen2 : length (Q_mu s2) = length (Q s2)).
  { subst s2. simpl. rewrite length_insert. lia. }
  exists mu, n. split_and!; try done.
  { destruct (for_each_rescore np_sqrt np_log10 _ s2 Hkeys Hlen2) as (q' & Hq' & _).
    rewrite Hq' in Hu. by injection Hu as <-. }
  intros j.
  assert (HQmu' : Q_mu s' = Q_mu s2).
  { destruct (for_each_rescore np_sqrt np_log10 _ s2 Hkeys Hlen2) as (q' & Hq' & _).
    rewrite Hq' in Hu. by injection Hu as <-. }
  rewrite HQmu'.
  destruct (num_times_arm s !! Z.of_nat j) as [c|] eqn:Hc.
  - pose proof (wf_keys s Hwf _ _ Hc) as Hjr.
    destruct (lookup_lt_is_Some_2 (Q_mu s2) j) as [m Hm].
    { rewrite Hlen2. subst s2. simpl. lia. }
    rewrite Hm.
    case_bool_decide as Hpos.
    + destruct (for_each_rescore_hit np_sqrt np_log10 _ s2 (Z.of_nat j) c m
                  Hkeys Hlen2) as (q' & Hq' & _ & Hhit); try done; try lia.
      { by rewrite Nat2Z.id. }
      { left. apply list_elem_of_fmap. exists (Z.of_nat j, c). split; [done|].
        by apply elem_of_map_to_list. }
      rewrite Hq' in Hu. injection Hu as <-. rewrite Nat2Z.id in Hhit. exact Hhit.
    + destruct (for_each_rescore_miss _ s2 j Hkeys Hlen2) as (q' & Hq' & Hmiss).
      { intros c' Hc'. assert (c' = c) as -> by (subst s2; simpl in *; congruence). lia. }
      rewrite Hq' in Hu. injection Hu as <-. exact Hmiss.
  - destruct (for_each_rescore_miss _ s2 j Hkeys Hlen2) as (q' & Hq' & Hmiss).
    { intros c' Hc'. subst s2; simpl in *; congruence. }
    rewrite Hq' in Hu. injection Hu as <-. simpl.
    rewrite Hmiss. by destruct (Q_mu s2 !! j).
Qed.

(** X5: a returning [update(arm, reward)] replaces the mean of its arm by
    [(mean * (n - 1) + reward) / n], [n] the pull count of the arm, and
    leaves every other mean; then the score of every arm with a positive
    pull count is the upper confidence bound computed from its mean, its
    pull count and the number of rounds on record, and the score of every
    other arm is what it was. *)
Theorem update_recomputes_scores (arm : Z) (reward : float64) (s s' : UCB) :
  wf s -> update' arm reward s = (Ok tt, s') ->
  exists mu n,
    Q_mu s !! Z.to_nat (arm - 1) = Some mu /\
    num_times_arm s !! (arm - 1) = Some n /\
    Q_mu s' = <[Z.to_nat (arm - 1) :=
                fdiv (fadd (fmul mu (of_int (n - 1))) reward) (of_int n)]>
                (Q_mu s) /\
    forall j : nat,
      Q s' !! j =
      match num_times_arm s !! Z.of_nat j, Q_mu s' !! j with
      | Some c, Some m =>
          if bool_decide (0 < c)
          then Some (ucb_score np_sqrt np_log10 (rho s) (size (arm_at_t s)) c m)
          else Q s !! j
      | _, _ => Q s !! j
      end.
Proof. apply update_effect. Qed.

(** X6: which way [update(arm, _)] goes on a state the methods produce. It
    returns exactly when the arm has an entry among the pull counts. It
    raises [IndexError] exactly when [arm - 1] is no index of the arrays,
    negative indices counting from the end, and [KeyError] exactly when
    [arm - 1] is such an index without a pull count; arms 0 to [1 - narms]
    are of that kind. It never raises [ValueError]. *)
Theorem update_outcome (arm : Z) (reward : float64) (s : UCB) :
  wf s ->
  match (update' arm reward s).1 with
  | Ok _ => is_Some (num_times_arm s !! (arm - 1))
  | Raise IndexError => ~ (- narms s <= arm - 1 < narms s)
  | Raise KeyError =>
      - narms s <= arm - 1 < narms s /\ num_times_arm s !! (arm - 1) = None
  | Raise ValueError => False
  end.
Proof.
  intros Hwf. pose proof (update_eq np_sqrt np_log10 arm reward s Hwf) as Heq.
  pose proof (np_getitem_cases (Q_mu s) (arm - 1)) as Hget.
  rewrite (wf_Q_mu s Hwf) in Hget.
  destruct (np_getitem (Q_mu s) (arm - 1)) as [mu|e].
  - destruct (num_times_arm s !! (arm - 1)) as [n|] eqn:Hn.
    + destruct Heq as (q' & _ & ->). simpl. eauto.
    + rewrite Heq. simpl. done.
  - rewrite Heq. simpl. destruct Hget as [-> Hout]. done.
Qed.

Lemma fdiv_by_zero (x : float64) (q : Qc) : fdiv x (of_int 0) <> Fin q.
Proof.
  destruct x as [a| | |]; simpl; try done.
  change (Qc_sign (Z2Qc 0)) with Eq. by destruct (Qc_sign a).
Qed.

(** X7: [update] on an arm whose pull count is zero does not raise: the
    division by the count makes the mean of the arm an infinity or [nan]. *)
Theorem update_zero_count (arm : Z) (reward : float64) (s : UCB) :
  wf s -> num_times_arm s !! (arm - 1) = Some 0 ->
  exists s' v, update' arm reward s = (Ok tt, s') /\
    Q_mu s' !! Z.to_nat (arm - 1) = Some v /\ forall q, v <> Fin q.
Proof.
  intros Hwf Hn.
  destruct (update_returns np_sqrt np_log10 arm reward s Hwf) as [s' Hs']; [eauto|].
  destruct (update_effect arm reward s s' Hwf Hs') as (mu & n & Hmu & Hn' & HQmu & _).
  assert (n = 0) as -> by congruence.
  eexists s', _. split_and!; [done | |].
  - rewrite HQmu. apply list_lookup_insert_eq. by eapply lookup_lt_Some.
  - intros q. apply fdiv_by_zero.
Qed.
End UpdateEffects.

(** ** Sequences of calls *)

Lemma rounds_of_insert (m : gmap Z Z) (t i a : Z) :
  Z.of_nat (size (filter (fun p : Z * Z => p.2 = a) (<[t := i]> m))) =
  Z.of_nat (size (filter (fun p : Z * Z => p.2 = a) m))
  + (if bool_decide (i = a) then 1 else 0)
  - (if bool_decide (m !! t = Some a) then 1 else 0).
Proof.
  set (P := fun p : Z * Z => p.2 = a).
  assert (Hf : filter P m !! t =
               if bool_decide (m !! t = Some a) then Some a else None).
  { case_bool_decide as Hm.
    - by apply map_lookup_filter_Some.
    - apply eq_None_not_Some. intros [y Hy].
      apply map_lookup_filter_Some in Hy as [Hy Hp]. unfold P in Hp. simpl in Hp.
      subst y. done. }
  assert (Hpos : m !! t = Some a -> (0 < size (filter P m))%nat).
  { intros Hm. rewrite bool_decide_eq_true_2 in Hf by done.
    rewrite <- (insert_delete_id (filter P m) t a Hf).
    rewrite map_size_insert_None by apply lookup_delete_eq. lia. }
  rewrite map_filter_insert.
  destruct (decide (P (t, i))) as [Hi | Hi]; unfold P in Hi; simpl in Hi.
  - rewrite (bool_decide_eq_true_2 (i = a)) by done.
    rewrite map_size_insert, Hf. case_bool_decide; simpl; lia.
  - rewrite (bool_decide_eq_false_2 (i = a)) by done.
    rewrite map_filter_delete, map_size_delete, Hf.
    case_bool_decide as Hm; simpl; [specialize (Hpos Hm)|]; lia.
Qed.

Section Runs.
Variables np_sqrt np_log10 : float64 -> float64.

Abbreviation update' := (update np_sqrt np_log10).
Abbreviation step' := (step np_sqrt np_log10).
Abbreviation run' := (run np_sqrt np_log10).

(** What a raising [update] leaves behind, and what any [update] keeps of
    the configuration. *)
Lemma update_raise_state (arm : Z) (reward : float64) (s s' : UCB) (e : exn) :
  wf s -> update' arm reward s = (Raise e, s') -> s' = log_reward reward s.
Proof.
  intros Hwf Hu. pose proof (update_eq np_sqrt np_log10 arm reward s Hwf) as Heq.
  destruct (np_getitem (Q_mu s) (arm - 1)) as [mu|e'].
  - destruct (num_times_arm s !! (arm - 1)) as [n|].
    + destruct Heq as (q' & _ & Heq). congruence.
    + congruence.
  - congruence.
Qed.

Lemma update_config (arm : Z) (reward : float64) (s : UCB) :
  wf s ->
  narms (update' arm reward s).2 = narms s /\
  rho (update' arm reward s).2 = rho s /\ Q0 (update' arm reward s).2 = Q0 s.
Proof.
  intros Hwf. pose proof (update_eq np_sqrt np_log10 arm reward s Hwf) as Heq.
  destruct (np_getitem (Q_mu s) (arm - 1)) as [mu|e'].
  - destruct (num_times_arm s !! (arm - 1)) as [n|].
    + destruct Heq as (q' & _ & ->). done.
    + by rewrite Heq.
  - by rewrite Heq.
Qed.

Lemma run_cons (c : call) (cs : list call) (s : UCB) :
  run' (c :: cs) s = ((step' c s).1 :: (run' cs (step' c s).2).1,
                      (run' cs (step' c s).2).2).
Proof.
  simpl. destruct (step' c s) as [r s1]. simpl.
  by destruct (run' cs s1).
Qed.

Lemma run_config (cs : list call) (s : UCB) :
  wf s ->
  narms (run' cs s).2 = narms s /\ rho (run' cs s).2 = rho s /\
  Q0 (run' cs s).2 = Q0 s.
Proof.
  revert s. induction cs as [|c cs IH]; intros s Hwf; [done|].
  rewrite run_cons. simpl.
  destruct (IH _ (wf_step np_sqrt np_log10 c s Hwf)) as (-> & -> & ->).
  destruct c as [d t | arm r]; simpl.
  - pose proof (play_untouched d t s) as H. destruct (play d t s). simpl in *. tauto.
  - pose proof (update_config arm r s Hwf) as H. destruct (update' arm r s). done.
Qed.

(** X8: the invariant of the object. After any sequence of [play] and
    [update] calls on a new selector, exceptions included, both arrays have
    [narms] cells, every key of the pull counts is an arm index in
    [0, narms), every arm on record for a round has a pull count, and
    [narms], [rho] and [Q0] are the constructor's arguments. *)
Theorem reachable_invariant (n : Z) (r q0 : float64) (s0 : UCB)
    (cs : list call) :
  __init__ n r q0 = Ok s0 ->
  wf (run' cs s0).2 /\
  narms (run' cs s0).2 = n /\ rho (run' cs s0).2 = r /\ Q0 (run' cs s0).2 = q0.
Proof.
  intros Hinit. pose proof (wf_init _ _ _ _ Hinit) as Hwf.
  split; [by apply wf_run|].
  destruct (run_config cs s0 Hwf) as (-> & -> & ->).
  unfold __init__ in Hinit. case_bool_decide; [done|]. by injection Hinit as <-.
Qed.

Lemma run_rewards (cs : list call) (s : UCB) :
  wf s -> reward_at_t (run' cs s).2 = reward_at_t s ++ rewards_of cs.
Proof.
  revert s. induction cs as [|c cs IH]; intros s Hwf.
  - simpl. by rewrite app_nil_r.
  - rewrite run_cons. simpl. rewrite (IH _ (wf_step np_sqrt np_log10 c s Hwf)).
    destruct c as [d t | arm r]; simpl.
    + pose proof (play_untouched d t s) as (_ & _ & H & _).
      destruct (play d t s). simpl in *. by rewrite H.
    + destruct (update_untouched np_sqrt np_log10 arm r s Hwf) as (_ & _ & H & _).
      destruct (update' arm r s). simpl in *. by rewrite H, <- app_assoc.
Qed.

(** X9: the reward log after any sequence of calls on a new selector is the
    list of the rewards passed to [update], in call order: one entry per
    [update] call, whether the call returned or raised, and none for
    [play]. *)
Theorem reward_log_is_call_log (n : Z) (r q0 : float64) (s0 : UCB)
    (cs : list call) :
  __init__ n r q0 = Ok s0 ->
  reward_at_t (run' cs s0).2 = rewards_of cs.
Proof.
  intros Hinit. rewrite run_rewards by (by eapply wf_init).
  unfold __init__ in Hinit. case_bool_decide; [done|]. by injection Hinit as <-.
Qed.

Lemma run_keeps_counts (cs : list call) (s : UCB) :
  wf s -> (forall a, pull_count s a = Z.of_nat (rounds_of s a)) ->
  plays_returned (run' cs s).1 = true ->
  forall a, pull_count (run' cs s).2 a = Z.of_nat (rounds_of (run' cs s).2 a).
Proof.
  revert s. induction cs as [|c cs IH]; intros s Hwf Hbal; [done|].
  rewrite run_cons. simpl. intros [Hc Hcs]%andb_true_iff.
  apply IH; [by apply wf_step | | done].
  destruct c as [d t | arm r]; simpl in *.
  - destruct (play d t s) as [[arm|e] s1] eqn:Hp; [|done]. simpl.
    destruct (play_effect d t arm s s1 Hwf Hp) as [Hcnt Hhist].
    intros a. rewrite Hcnt, Hbal. unfold rounds_of. rewrite Hhist, rounds_of_insert.
    repeat case_bool_decide; try congruence; lia.
  - destruct (update_untouched np_sqrt np_log10 arm r s Hwf) as (H1 & H2 & _).
    destruct (update' arm r s). simpl in *.
    intros a. unfold pull_count, rounds_of. rewrite H1, H2. apply Hbal.
Qed.

(** X10: in every sequence of calls on a new selector in which every [play]
    returned, the pull count of each arm is the number of rounds the
    selection history records for that arm; no pull count is negative. *)
Theorem pull_count_is_rounds_on_record (n : Z) (r q0 : float64) (s0 : UCB)
    (cs : list call) (a : Z) :
  __init__ n r q0 = Ok s0 ->
  plays_returned (run' cs s0).1 = true ->
  pull_count (run' cs s0).2 a = Z.of_nat (rounds_of (run' cs s0).2 a) /\
  0 <= pull_count (run' cs s0).2 a.
Proof.
  intros Hinit Hplays.
  assert (H : pull_count (run' cs s0).2 a = Z.of_nat (rounds_of (run' cs s0).2 a)).
  { apply run_keeps_counts; [by eapply wf_init | | done].
    unfold __init__ in Hinit. case_bool_decide; [done|]. injection Hinit as <-.
    intros a'. unfold pull_count, rounds_of. simpl.
    by rewrite lookup_empty, map_filter_empty, map_size_empty. }
  split; [done | lia].
Qed.

Lemma step_nan_arm (c : call) (s : UCB) (a : nat) :
  wf s -> nan_arm s a -> nan_arm (step' c s).2 a.
Proof.
  intros Hwf [HQ HQmu]. destruct c as [d t | arm r]; simpl.
  - pose proof (play_untouched d t s) as (H1 & H2 & _).
    destruct (play d t s). simpl in *. unfold nan_arm. by rewrite H1, H2.
  - destruct (update' arm r s) as [[[]|e] s'] eqn:Hu; simpl.
    + destruct (update_effect np_sqrt np_log10 arm r s s' Hwf Hu)
        as (mu & n & Hmu & Hn & Hmean & Hscore).
      assert (Ha : Q_mu s' !! a = Some NaN).
      { rewrite Hmean. destruct (decide (Z.to_nat (arm - 1) = a)) as [<- | Hne].
        - assert (mu = NaN) as -> by congruence.
          apply list_lookup_insert_eq. by eapply lookup_lt_Some.
        - by rewrite list_lookup_insert_ne. }
      split; [|done]. rewrite Hscore, Ha.
      destruct (num_times_arm s !! Z.of_nat a) as [c|]; [|done].
      case_bool_decide; [|done]. unfold ucb_score. by rewrite fadd_nan_r.
    + by rewrite (update_raise_state arm r s s' e Hwf Hu).
Qed.

Lemma run_nan_arm (cs : list call) (s : UCB) (a : nat) :
  wf s -> nan_arm s a -> nan_arm (run' cs s).2 a.
Proof.
  revert s. induction cs as [|c cs IH]; intros s Hwf Hnan; [done|].
  rewrite run_cons. simpl.
  apply IH; [by apply wf_step | by apply step_nan_arm].
Qed.

(** X11: a [nan] does not go away. Once the mean and the score of an arm are
    [nan], they stay [nan] through every further [play] and [update], and
    every further [play] raises [ValueError]. *)
Theorem nan_is_permanent (s : UCB) (a : nat) (cs : list call) (draw : nat)
    (tround : Z) :
  wf s -> nan_arm s a ->
  nan_arm (run' cs s).2 a /\
  (play draw tround (run' cs s).2).1 = Raise ValueError.
Proof.
  intros Hwf Hnan. pose proof (run_nan_arm cs s a Hwf Hnan) as [HQ HQmu].
  split; [done|].
  destruct (play_raises_on_nan draw tround (run' cs s).2) as [s' ->]; [| |done].
  - by apply wf_run.
  - apply Exists_exists. exists NaN. split; [by eapply list_elem_of_lookup_2 | done].
Qed.

(** X12: a selector without arms. [UCB(0, rho, Q0)] is constructed, and on
    it every [play] raises [ValueError], at any point of any sequence of
    calls. *)
Theorem no_arm_no_play (r q0 : float64) (s0 : UCB) (cs : list call)
    (draw : nat) (tround : Z) :
  __init__ 0 r q0 = Ok s0 ->
  (play draw tround (run' cs s0).2).1 = Raise ValueError.
Proof.
  intros Hinit. pose proof (wf_init _ _ _ _ Hinit) as Hwf0.
  pose proof (wf_run np_sqrt np_log10 cs s0 Hwf0) as Hwf.
  destruct (run_config cs s0 Hwf0) as (Hn & _).
  assert (Hn0 : narms s0 = 0).
  { unfold __init__ in Hinit. case_bool_decide; [done|]. by injection Hinit as <-. }
  assert (HQ : Q (run' cs s0).2 = []).
  { apply nil_length_inv. pose proof (wf_Q _ Hwf). lia. }
  rewrite play_eq, HQ. simpl.
  destruct (arm_at_t (run' cs s0).2 !! tround) as [prev|] eqn:Ht; [|done].
  by destruct (wf_hist _ Hwf _ _ Ht) as [c ->].
Qed.
End Runs.

(** ** The further properties on concrete selectors *)

Lemma wf_updated_once : wf updated_once.
Proof. apply wf_update, wf_played_once. Qed.

Lemma wf_replayed_once : wf replayed_once.
Proof. apply wf_play, wf_played_once. Qed.

(** X4 on [play(1)] called again, the draw selecting the second arm. *)
Lemma play_pull_counts_witness :
  (forall j, pull_count replayed_once j =
             pull_count played_once j
             + (if bool_decide (j = 2 - 1) then 1 else 0)
             - (if bool_decide (arm_at_t played_once !! 1 = Some j) then 1 else 0)) /\
  arm_at_t replayed_once = <[1 := 2 - 1]> (arm_at_t played_once).
Proof.
  apply (play_pull_counts 1 1 2 played_once replayed_once).
  - exact wf_played_once.
  - by vm_compute.
Defined.

(** X5 on [update(1, 1.0)] after the first [play]. *)
Lemma update_recomputes_scores_witness :
  exists mu n,
    Q_mu played_once !! Z.to_nat (1 - 1) = Some mu /\
    num_times_arm played_once !! (1 - 1) = Some n /\
    Q_mu updated_once =
      <[Z.to_nat (1 - 1) :=
        fdiv (fadd (fmul mu (of_int (n - 1))) (of_int 1)) (of_int n)]>
        (Q_mu played_once) /\
    forall j : nat,
      Q updated_once !! j =
      match num_times_arm played_once !! Z.of_nat j, Q_mu updated_once !! j with
      | Some c, Some m =>
          if bool_decide (0 < c)
          then Some (ucb_score id_ufunc id_ufunc (rho played_once)
                               (size (arm_at_t played_once)) c m)
          else Q played_once !! j
      | _, _ => Q played_once !! j
      end.
Proof.
  apply (update_recomputes_scores id_ufunc id_ufunc 1 (of_int 1) played_once updated_once).
  - exact wf_played_once.
  - by vm_compute.
Defined.

(** X6 on [update(0, 1.0)]: the index -1 is the last cell of the array and
    has no pull count. *)
Lemma update_outcome_witness :
  match (update id_ufunc id_ufunc 0 (of_int 1) played_once).1 with
  | Ok _ => is_Some (num_times_arm played_once !! (0 - 1))
  | Raise IndexError => ~ (- narms played_once <= 0 - 1 < narms played_once)
  | Raise KeyError =>
      - narms played_once <= 0 - 1 < narms played_once /\
      num_times_arm played_once !! (0 - 1) = None
  | Raise ValueError => False
  end.
Proof.
  apply (update_outcome id_ufunc id_ufunc 0 (of_int 1) played_once).
  exact wf_played_once.
Defined.

(** X7 on [update(1, 1.0)] after the round of the first arm was played
    again on the second. *)
Lemma update_zero_count_witness :
  exists s' v, update id_ufunc id_ufunc 1 (of_int 1) replayed_once = (Ok tt, s') /\
    Q_mu s' !! Z.to_nat (1 - 1) = Some v /\ forall q, v <> Fin q.
Proof.
  apply (update_zero_count id_ufunc id_ufunc 1 (of_int 1) replayed_once).
  - exact wf_replayed_once.
  - by vm_compute.
Defined.

(** X8 on a sequence with an [update] that raises. *)
Lemma reachable_invariant_witness :
  wf (run id_ufunc id_ufunc [Play 0 1; Update 3 (of_int 1)]
          (selector 2 (of_int 1) Q0_default)).2 /\
  narms (run id_ufunc id_ufunc [Play 0 1; Update 3 (of_int 1)]
             (selector 2 (of_int 1) Q0_default)).2 = 2 /\
  rho (run id_ufunc id_ufunc [Play 0 1; Update 3 (of_int 1)]
           (selector 2 (of_int 1) Q0_default)).2 = of_int 1 /\
  Q0 (run id_ufunc id_ufunc [Play 0 1; Update 3 (of_int 1)]
          (selector 2 (of_int 1) Q0_default)).2 = Q0_default.
Proof.
  apply (reachable_invariant id_ufunc id_ufunc 2 (of_int 1) Q0_default).
  reflexivity.
Defined.

(** X9 on a sequence whose first [update] raises. *)
Lemma reward_log_is_call_log_witness :
  reward_at_t
    (run id_ufunc id_ufunc [Update 3 (of_int 5); Play 0 1; Update 1 (of_int 7)]
         (selector 2 (of_int 1) Q0_default)).2 =
  rewards_of [Update 3 (of_int 5); Play 0 1; Update 1 (of_int 7)].
Proof.
  apply (reward_log_is_call_log id_ufunc id_ufunc 2 (of_int 1) Q0_default).
  reflexivity.
Defined.

(** X10 on [play(1)], [update(1, 1.0)], [play(1)] again, [play(2)], with
    [Q0 = 0], for the first arm. *)
Lemma pull_count_is_rounds_on_record_witness :
  pull_count
    (run id_ufunc id_ufunc [Play 0 1; Update 1 (of_int 1); Play 0 1; Play 0 2]
         (selector 2 (of_int 1) (of_int 0))).2 0 =
  Z.of_nat (rounds_of
    (run id_ufunc id_ufunc [Play 0 1; Update 1 (of_int 1); Play 0 1; Play 0 2]
         (selector 2 (of_int 1) (of_int 0))).2 0) /\
  0 <= pull_count
    (run id_ufunc id_ufunc [Play 0 1; Update 1 (of_int 1); Play 0 1; Play 0 2]
         (selector 2 (of_int 1) (of_int 0))).2 0.
Proof.
  apply (pull_count_is_rounds_on_record id_ufunc id_ufunc 2 (of_int 1) (of_int 0)).
  - reflexivity.
  - by vm_compute.
Defined.

(** X11 on the selector after its first round with the default [Q0]. *)
Lemma nan_is_permanent_witness :
  nan_arm (run id_ufunc id_ufunc [Update 2 (of_int 1); Play 0 2] updated_once).2 0 /\
  (play 0 3 (run id_ufunc id_ufunc [Update 2 (of_int 1); Play 0 2] updated_once).2).1
  = Raise ValueError.
Proof.
  apply (nan_is_permanent id_ufunc id_ufunc updated_once 0).
  - exact wf_updated_once.
  - split; by vm_compute.
Defined.

(** X12 on [UCB(0, 1.0)]. *)
Lemma no_arm_no_play_witness :
  (play 0 1 (run id_ufunc id_ufunc [Update 1 (of_int 1)]
                 (selector 0 (of_int 1) Q0_default)).2).1 = Raise ValueError.
Proof.
  apply (no_arm_no_play id_ufunc id_ufunc (of_int 1) Q0_default).
  reflexivity.
Defined.

(** The recurrence on two rounds with rewards 1 and 3: the mean is 4 / 2. *)
Lemma mean_reward_finite_Q0_witness :
  Q_mu two_rounds !! Z.to_nat (1 - 1) =
  Some (Fin (Qc_sum (map snd [(0%nat, 1, Z2Qc 1); (0%nat, 2, Z2Qc 3)]) /
             Z2Qc (Z.of_nat (length [(0%nat, 1, Z2Qc 1); (0%nat, 2, Z2Qc 3)])))).
Proof.
  apply (mean_reward_finite_Q0 id_ufunc id_ufunc 1 1 (of_int 1) (Z2Qc 0)
           [(0%nat, 1, Z2Qc 1); (0%nat, 2, Z2Qc 3)]
           (selector 1 (of_int 1) (of_int 0)) two_rounds).
  - reflexivity.
  - lia.
  - simpl. apply NoDup_cons. split; [| apply NoDup_singleton].
    by intros ?%list_elem_of_singleton.
  - done.
  - by vm_compute.
Defined.

(** C5 on [UCB(1, 1.0)] and the round 5. *)
Lemma default_Q0_replay_loses_pull_witness :
  exists s0 a s1 s2 s3,
    __init__ 1 (of_int 1) Q0_default = Ok s0 /\
    play 0 5 s0 = (Ok a, s1) /\
    update id_ufunc id_ufunc a (of_int 1) s1 = (Ok tt, s2) /\
    arm_at_t s2 !! 5 = Some (a - 1) /\
    pull_count s2 (a - 1) = 1 /\ total_pulls s2 = 1 /\
    play 0 5 s2 = (Raise ValueError, s3) /\
    pull_count s3 (a - 1) = 0 /\ total_pulls s3 = 0.
Proof.
  apply (default_Q0_replay_loses_pull id_ufunc id_ufunc 1 (of_int 1) (of_int 1) 0 0 5).
  lia.
Defined.
